(** * klpbbs_levels: the EXP <-> level curve and the distribution aggregator

    A shallow embedding of [core/query.py], of the aggregation part of
    [core/distribution.py], of the old level system of [core/chart.py], of
    the migration table of [core/sql_generator.py] and of the query
    command of [main.py].  The plots, the SQL scripts, which are fixed
    texts, and the reading and writing of files are not part of it.

    Modelling conventions.
    - A Python [int] is a [Z].
    - A Python [str] is a [string]; a character of the [string] is read as
      the Unicode code point of the same number (U+0000 .. U+00FF).
      The conversions between [int] and [str] have the limit of the
      interpreter, 4300 digits unless it is configured otherwise
      ([sys.int_max_str_digits]): [int(s)] raises [ValueError] for a
      string of more digits, and so does [str(n)], as the f-strings and
      [csv.writer] apply it, for an [int] of more digits.
    - A raised exception is the [Raise] case of [result]; [try/except] is
      [catch].
    - A function that prints, reads lines or writes rows returns what it
      has printed or written, together with the way it ended; what is
      written before an exception stays written.
    - A [dict] with integer keys is a [gmap Z Z].
    - A [numpy.float64] / Python [float] is a real number: [np.log] is [ln],
      [np.exp] is [exp], [**] on a positive base is [Rpower], and the
      arithmetic operators are exact.  Rounding to binary64 is not part of
      the model.  The facts that depend on where a value lies between two
      integers are proved with certified enclosures of [exp] and [ln], and
      with a margin: the level before truncation stays [10^-6] away from
      the integers (but at the cap, where it is 50 exactly), the minimum
      EXP before truncation [10^-3] ([truncation_stable],
      [min_exp_truncation_stable]).
    - [np.log] applied to a Python [int] first converts it to an array
      scalar: an [int] that fits neither [int64] nor [uint64] becomes an
      [object] scalar, for which the ufunc has no loop, and the call raises
      [TypeError]. *)

From Stdlib Require Import ZArith Lia Reals Lra Bool Ascii.
From Stdlib Require DecimalString DecimalN DecimalFacts.
From Bignums Require Import BigZ.
From stdpp Require Import base option list sorting strings gmap fin_maps.

(** ** Exceptions *)

Inductive exn : Type := TypeError | ValueError | KeyError.

Inductive result (A : Type) : Type :=
| Ok (a : A)
| Raise (e : exn).
Arguments Ok {A} a.
Arguments Raise {A} e.

#[global] Instance result_ret : MRet result := fun _ a => Ok a.
#[global] Instance result_bind : MBind result := fun _ _ f r =>
  match r with
  | Ok a => f a
  | Raise e => Raise e
  end.

(** [try: body except: handler] with a bare [except]. *)
Definition catch {A} (body : result A) (handler : A) : A :=
  match body with
  | Ok a => a
  | Raise _ => handler
  end.

(** ** core/query.py *)

Definition uint64_max : Z := 2 ^ 64 - 1.
Definition int64_min : Z := - 2 ^ 63.

(** [np.log(n)] for a Python [int] [n]. The callers pass [n >= 2] only. *)
Definition np_log (n : Z) : result R :=
  if bool_decide (int64_min ≤ n ≤ uint64_max)%Z then Ok (ln (IZR n))
  else Raise TypeError.

(** [int(x)] for a float [x]: truncation toward zero. *)
Definition int_of_float (x : R) : Z :=
  if Rle_dec 0 x then Zfloor x else Zceil x.

Definition exp_cap : Z := 50000.
Definition gamma : R := 345 / 100.

Definition exp_to_level (exp : Z) : result Z :=
  let exp := Z.max exp 0 in
  if bool_decide (exp = 0%Z) then Ok 1%Z
  else
    a ← np_log (exp + 1);
    b ← np_log (exp_cap + 1);
    let base := (a / b)%R in
    let scaled := Rpower base gamma in
    let level := (1 + 49 * scaled)%R in
    Ok (Z.min 50 (int_of_float level)).

Definition batch_exp_to_level (exp_list : list Z) : result (list Z) :=
  mapM exp_to_level exp_list.

Definition level_to_min_exp (level : Z) : result Z :=
  if bool_decide (level ≤ 1)%Z then Ok 0%Z
  else if bool_decide (50 ≤ level)%Z then Ok 50000%Z
  else
    let scaled := (IZR (level - 1) / 49)%R in
    let base := Rpower scaled (1 / gamma) in
    l ← np_log (exp_cap + 1);
    let exp := (exp (base * l) - 1)%R in
    Ok (int_of_float exp).

(** The upper end of a level range: an [int], or [float("inf")]. *)
Inductive bound : Type :=
| Finite (z : Z)
| Infinity.

Definition get_level_range (level : Z) : result (Z * bound) :=
  min_exp ← level_to_min_exp level;
  max_exp ← (if bool_decide (level < 50)%Z
             then n ← level_to_min_exp (level + 1); Ok (Finite (n - 1))
             else Ok Infinity);
  Ok (min_exp, max_exp).

(** ** core/distribution.py *)

(** *** [int(s)] for a string [s]

    Leading and trailing white space is skipped, one sign is accepted, and
    the digits may be grouped by single underscores.  Below U+0100 the
    white space of [int] is TAB..CR, SPACE, NEL and NBSP, and the decimal
    digits are 0..9.  A string of more than [max_str_digits] digits,
    leading zeros counted and underscores not, is not converted: it
    raises [ValueError] as a string that is no number does. *)

Definition max_str_digits : Z := 4300.

Definition is_space (c : ascii) : bool :=
  let n := N_of_ascii c in
  ((9 <=? n) && (n <=? 13) || (n =? 32) || (n =? 133) || (n =? 160))%N.

Definition digit_value (c : ascii) : option Z :=
  let n := Z.of_N (N_of_ascii c) in
  if ((48 <=? n) && (n <=? 57))%Z then Some (n - 48)%Z else None.

Fixpoint lstrip (s : string) : string :=
  match s with
  | String c s' => if is_space c then lstrip s' else s
  | EmptyString => EmptyString
  end.

(** The digits after the first one: a digit, or an underscore followed by a
    digit.  Returns the value read so far and the unread rest. *)
Fixpoint scan_digits (acc : Z) (s : string) : result (Z * string) :=
  match s with
  | String c s' =>
      match digit_value c with
      | Some d => scan_digits (10 * acc + d) s'
      | None =>
          if Ascii.eqb c "_" then
            match s' with
            | String c' s'' =>
                match digit_value c' with
                | Some d => scan_digits (10 * acc + d) s''
                | None => Raise ValueError
                end
            | EmptyString => Raise ValueError
            end
          else Ok (acc, s)
      end
  | EmptyString => Ok (acc, EmptyString)
  end.

Definition split_sign (s : string) : Z * string :=
  match s with
  | String c s' =>
      if Ascii.eqb c "+" then (1%Z, s')
      else if Ascii.eqb c "-" then ((-1)%Z, s')
      else (1%Z, s)
  | EmptyString => (1%Z, s)
  end.

(** The number of digits in a string. *)
Fixpoint count_digits (s : string) : Z :=
  match s with
  | String c s' =>
      match digit_value c with
      | Some _ => (1 + count_digits s')%Z
      | None => count_digits s'
      end
  | EmptyString => 0%Z
  end.

Definition py_int (s : string) : result Z :=
  let '(sign, digits) := split_sign (lstrip s) in
  match digits with
  | String c s' =>
      match digit_value c with
      | Some d =>
          '(n, rest) ← scan_digits d s';
          match lstrip rest with
          | EmptyString =>
              if bool_decide (count_digits digits ≤ max_str_digits)%Z
              then Ok (sign * n)%Z
              else Raise ValueError
          | String _ _ => Raise ValueError
          end
      | None => Raise ValueError
      end
  | EmptyString => Raise ValueError
  end.

(** [sep in s] and [s.split(sep)] for a one-character [sep]. *)
Fixpoint contains (sep : ascii) (s : string) : bool :=
  match s with
  | String c s' => Ascii.eqb c sep || contains sep s'
  | EmptyString => false
  end.

Fixpoint split (sep : ascii) (s : string) : list string :=
  match s with
  | String c s' =>
      if Ascii.eqb c sep then EmptyString :: split sep s'
      else
        match split sep s' with
        | p :: ps => String c p :: ps
        | [] => [String c EmptyString]
        end
  | EmptyString => [EmptyString]
  end.

(** [map(int, parts)] is consumed by the two-name unpacking; every way it
    can fail (a part that is not an integer, fewer or more than two
    parts) raises [ValueError]. *)
Definition parse_exp_range_body (exp_group : string) : result (Z * Z) :=
  if contains "-" exp_group then
    parts ← mapM py_int (split "-" exp_group);
    match parts with
    | [min_exp; max_exp] => Ok (min_exp, max_exp)
    | _ => Raise ValueError
    end
  else
    exp ← py_int exp_group;
    Ok (exp, exp).

Definition parse_exp_range (exp_group : string) : Z * Z :=
  catch (parse_exp_range_body exp_group) (0%Z, 0%Z).

(** A row of the input frame and a row of the output frame.  The third
    output column, [percentage], is a float computed from [user_count] and
    its total; it is not modelled. *)
Record row : Type := Row { exp_group : string; count : Z }.
Record level_row : Type := LevelRow { level : Z; user_count : Z }.

(** Python compares the [(level, count)] items as tuples. *)
Definition tuple_le (x y : Z * Z) : Prop :=
  (x.1 < y.1 ∨ (x.1 = y.1 ∧ x.2 ≤ y.2))%Z.

#[global] Instance tuple_le_dec : RelDecision tuple_le.
Proof. intros x y. unfold tuple_le. apply _. Defined.

Definition sorted (items : list (Z * Z)) : list (Z * Z) :=
  merge_sort tuple_le items.

Definition row_level (r : row) : result Z :=
  let '(min_exp, max_exp) := parse_exp_range (exp_group r) in
  let mid_exp := ((min_exp + max_exp) `div` 2)%Z in
  exp_to_level mid_exp.

(** One iteration of the loop over [df.iterrows()]. *)
Definition accumulate (level_distribution : gmap Z Z) (r : row)
  : result (gmap Z Z) :=
  level ← row_level r;
  Ok (match level_distribution !! level with
      | Some c => <[level := (c + count r)%Z]> level_distribution
      | None => <[level := count r]> level_distribution
      end).

Fixpoint iterrows (level_distribution : gmap Z Z) (df : list row)
  : result (gmap Z Z) :=
  match df with
  | [] => Ok level_distribution
  | r :: df' =>
      level_distribution' ← accumulate level_distribution r;
      iterrows level_distribution' df'
  end.

(** [pd.DataFrame([{"level": level, "user_count": count} for ...])]. *)
Definition frame (items : list (Z * Z)) : list level_row :=
  (λ '(level, count), LevelRow level count) <$> items.

(** The items of the dictionary are sorted before the frame is built, so
    the order in which [map_to_list] lists them does not matter.
    [pd.DataFrame([])] has no columns, so selecting ["user_count"] from the
    frame built out of an empty dictionary raises [KeyError]. *)
Definition calculate_level_distribution (df : list row)
  : result (list level_row) :=
  level_distribution ← iterrows ∅ df;
  let result_df := frame (sorted (map_to_list level_distribution)) in
  match result_df with
  | [] => Raise KeyError
  | _ :: _ => Ok result_df
  end.

(** ** Certified enclosures of [exp] and [ln]

    Fixed-point numbers: the integer [x] stands for [x / 2^p].  [exp] of a
    small argument [y] lies between [1 + y] and [1 / (1 - y)]; squaring [k]
    times, rounding down or up, gives bounds of [exp (2^k * y)].

    [Encl] states the enclosure of [exp] on [Z]; [Big] runs it, and what is
    built on it, on machine words. *)

Module Encl.

Definition sq_dn (p x : Z) : Z := Z.shiftr (x * x) p.
Definition sq_up (p x : Z) : Z := Z.shiftr (x * x + 2 ^ p - 1) p.

Fixpoint iter_sq (f : Z → Z) (k : nat) (x : Z) : Z :=
  match k with
  | O => x
  | S k' => iter_sq f k' (f x)
  end.

(** Bounds of [2^p * exp (2^k * n / D)]. *)
Definition exp_lo (p D : Z) (k : nat) (n : Z) : Z :=
  iter_sq (sq_dn p) k (2 ^ p + n * 2 ^ p / D)%Z.
Definition exp_hi (p D : Z) (k : nat) (n : Z) : Z :=
  iter_sq (sq_up p) k ((2 ^ p * D + (D - n) - 1) / (D - n))%Z.

(** The working precision: arguments on the grid [1 / G], [k] squarings. *)
Definition k : nat := 52.
Definition g : nat := 44.
Definition G : Z := 2 ^ Z.of_nat g.
Definition p : Z := 100.
Definition D : Z := G * 2 ^ Z.of_nat k.

End Encl.

Module Big.
Local Open Scope bigZ_scope.

Definition sq_dn (p x : bigZ) : bigZ := BigZ.shiftr (x * x) p.
Definition sq_up (p x : bigZ) : bigZ := BigZ.shiftr (x * x + 2 ^ p - 1) p.

Fixpoint iter_sq (f : bigZ → bigZ) (k : nat) (x : bigZ) : bigZ :=
  match k with
  | O => x
  | S k' => iter_sq f k' (f x)
  end.

Definition exp_lo (p D : bigZ) (k : nat) (n : bigZ) : bigZ :=
  iter_sq (sq_dn p) k (2 ^ p + n * 2 ^ p / D).
Definition exp_hi (p D : bigZ) (k : nat) (n : bigZ) : bigZ :=
  iter_sq (sq_up p) k ((2 ^ p * D + (D - n) - 1) / (D - n)).

Definition G : bigZ := BigZ.of_Z Encl.G.
Definition p : bigZ := BigZ.of_Z Encl.p.
Definition D : bigZ := BigZ.of_Z Encl.D.
Definition g : bigZ := BigZ.of_Z (Z.of_nat Encl.g).
Definition slack : bigZ := 64.

(** An uncertified approximation of [G * ln a]: the binary logarithm, one
    bit per squaring of the mantissa, times [ln 2]. *)
Definition ln2_60 : bigZ := 799144290325165978.

Definition log2_step (st : bigZ * bigZ) : bigZ * bigZ :=
  let '(m, acc) := st in
  let m2 := BigZ.shiftr (m * m) 64 in
  if 2 ^ 65 <=? m2 then (BigZ.shiftr m2 1, 2 * acc + 1)
  else (m2, 2 * acc).

Definition approx_ln (a : bigZ) : bigZ :=
  let e := BigZ.log2 a in
  let m := a * 2 ^ 64 / 2 ^ e in
  let '(_, bits) := Nat.iter Encl.g log2_step (m, 0) in
  BigZ.shiftr ((e * G + bits) * ln2_60) 60.

(** Certified bounds of [G * ln a]: the candidate is kept only when the
    enclosure of [exp] confirms it. *)
Definition ln_ub (a : bigZ) : option bigZ :=
  if a =? 1 then Some 0
  else
    let u := approx_ln a + slack in
    if (0 <=? u) && (a * 2 ^ p <=? exp_lo p D Encl.k u) then Some u
    else None.

Definition ln_lb (a : bigZ) : option bigZ :=
  if a =? 1 then Some 0
  else
    let u := approx_ln a - slack in
    if (0 <=? u) && (u <? D) && (exp_hi p D Encl.k u <=? a * 2 ^ p)
    then Some u else None.

(** A pair of bounds, of [G * ln c] for a constant [c] or of
    [G * ln (ln c)]. *)
Record bounds : Type := Bounds { lower : bigZ; upper : bigZ }.

Definition ln_bounds (a : bigZ) : option bounds :=
  lo ← ln_lb a; hi ← ln_ub a; Some (Bounds lo hi).

Definition exact_zero : bounds := Bounds 0 0.

(** Certified bounds of [G * ln (ln a - beta)], where [Bb] bounds
    [G * beta] and [B2] bounds [G * ln 2], from
    [ln (u / G) = ln u - g * ln 2]. *)
Definition lnln_ub (B2 : bounds) (a : bigZ) (Bb : bounds) : option bigZ :=
  hi ← ln_ub a;
  let u := hi - lower Bb in
  if 1 <=? u then v ← ln_ub u; Some (v - g * lower B2) else None.

Definition lnln_lb (B2 : bounds) (a : bigZ) (Bb : bounds) : option bigZ :=
  lo ← ln_lb a;
  let u := lo - upper Bb in
  if 1 <=? u then v ← ln_lb u; Some (v - g * upper B2) else None.

(** The bounds of [G * ln 2], [G * ln 49] and [G * ln (ln 50001)]. *)
Record consts : Type :=
  Consts { c_ln2 : bounds; c_ln49 : bounds; c_lnlncap : bounds }.

Definition make_consts : option consts :=
  B2 ← ln_bounds 2; B49 ← ln_bounds 49;
  lo ← lnln_lb B2 50001 exact_zero; hi ← lnln_ub B2 50001 exact_zero;
  Some (Consts B2 B49 (Bounds lo hi)).

(** [check_lt C a Bb n Bd]: where the argument of the logarithm is [a / b],
    the continuous level is below [1 + n / d]; [check_gt C a Bb n Bd]: it
    is above [1 + n / d]; [Bb] and [Bd] bound [G * ln b] and [G * ln d].
    Both compare [gamma * (ln (ln (a / b)) - ln (ln 50001))] with
    [ln (n / (49 * d))]. *)
Definition check_lt (C : consts) (a : bigZ) (Bb : bounds) (n : bigZ)
    (Bd : bounds) : bool :=
  match lnln_ub (c_ln2 C) a Bb, ln_lb n with
  | Some w, Some x =>
      345 * (w - lower (c_lnlncap C))
      <? 100 * (x - upper Bd - upper (c_ln49 C))
  | _, _ => false
  end.

Definition check_gt (C : consts) (a : bigZ) (Bb : bounds) (n : bigZ)
    (Bd : bounds) : bool :=
  match lnln_lb (c_ln2 C) a Bb, ln_ub n with
  | Some w, Some x =>
      100 * (x - lower Bd - lower (c_ln49 C))
      <? 345 * (w - upper (c_lnlncap C))
  | _, _ => false
  end.

End Big.

(** ** The level table

    [thresholds] lists, for the levels 2 .. 49, the least EXP at which the
    continuous level reaches the level. *)

Definition thresholds : list Z :=
  [33; 72; 123; 187; 266; 360; 471; 600; 750; 921; 1115; 1334; 1580; 1854;
   2158; 2495; 2866; 3274; 3720; 4208; 4739; 5316; 5942; 6618; 7349; 8137;
   8984; 9894; 10869; 11914; 13031; 14224; 15497; 16852; 18295; 19828;
   21455; 23182; 25011; 26948; 28997; 31163; 33450; 35862; 38407; 41087;
   43909; 46879]%Z.

(** The least EXP of level [L], for [2 <= L <= 49]. *)
Definition threshold (L : Z) : Z :=
  default 0%Z (thresholds !! Z.to_nat (L - 2)).

(** The number of leading thresholds that [e] has reached. *)
Fixpoint count_le (e : Z) (ts : list Z) : Z :=
  match ts with
  | [] => 0%Z
  | t :: ts' => if (t <=? e)%Z then (1 + count_le e ts')%Z else 0%Z
  end.

(** The level of an EXP, read from the table. *)
Definition level_table (e : Z) : Z :=
  if (e <=? 0)%Z then 1%Z
  else if (exp_cap <=? e)%Z then 50%Z
  else (1 + count_le e thresholds)%Z.

(** The value of [level] in [exp_to_level] before it is truncated, as a
    function of the argument [x] of the logarithm and of the EXP. *)
Definition level_at (x : R) : R :=
  (1 + 49 * Rpower (ln x / ln (IZR (exp_cap + 1))) gamma)%R.

Definition continuous_level (e : Z) : R := level_at (IZR (e + 1)).

(** The value of [exp] in [level_to_min_exp] before it is truncated. *)
Definition continuous_min_exp (L : Z) : R :=
  (exp (Rpower (IZR (L - 1) / 49) (1 / gamma) * ln (IZR (exp_cap + 1))) - 1)%R.

(** The margins by which the table is checked: the continuous level stays
    [1 / level_margin] away from the integers at every EXP but the cap, and
    the continuous minimum EXP stays [1 / exp_margin] away from them. *)
Definition level_margin : Z := 1000000.
Definition exp_margin : Z := 1000.

(** [B] encloses the real number [x], on the grid [1 / G]. *)
Definition encloses (B : Big.bounds) (x : R) : Prop :=
  (IZR (BigZ.to_Z (Big.lower B)) / IZR Encl.G <= x
   <= IZR (BigZ.to_Z (Big.upper B)) / IZR Encl.G)%R.

(** At the threshold [t] of level [L] the continuous level is below
    [L - 1 / level_margin] at [t - 1] and above [L + 1 / level_margin] at
    [t], and the level [L] is reached between the EXP
    [t - 1 + 1 / exp_margin] and [t - 1 / exp_margin]. *)
Definition check_threshold (C : Big.consts) (BK BX : Big.bounds) (L t : Z)
  : bool :=
  Big.check_lt C (BigZ.of_Z t) Big.exact_zero
    (BigZ.of_Z ((L - 1) * level_margin - 1)) BK
  && Big.check_gt C (BigZ.of_Z (t + 1)) Big.exact_zero
       (BigZ.of_Z ((L - 1) * level_margin + 1)) BK
  && Big.check_lt C (BigZ.of_Z (t * exp_margin + 1)) BX
       (BigZ.of_Z (L - 1)) Big.exact_zero
  && Big.check_gt C (BigZ.of_Z ((t + 1) * exp_margin - 1)) BX
       (BigZ.of_Z (L - 1)) Big.exact_zero.

Fixpoint check_thresholds (C : Big.consts) (BK BX : Big.bounds) (L : Z)
    (ts : list Z) : bool :=
  match ts with
  | [] => true
  | t :: ts' =>
      check_threshold C BK BX L t && check_thresholds C BK BX (L + 1) ts'
  end.

(** The two ends of the table: EXP 1 is above level 1, EXP 49999 below
    level 50 and EXP 50001 above it. *)
Definition check_ends (C : Big.consts) (BK : Big.bounds) : bool :=
  Big.check_gt C 2%bigZ Big.exact_zero 1%bigZ BK
  && Big.check_lt C 50000%bigZ Big.exact_zero
       (BigZ.of_Z (49 * level_margin - 1)) BK
  && Big.check_gt C 50002%bigZ Big.exact_zero
       (BigZ.of_Z (49 * level_margin + 1)) BK.

(** The constants of the check, computed once. *)
Definition table_consts : Big.consts :=
  Eval vm_compute in
    default (Big.Consts Big.exact_zero Big.exact_zero Big.exact_zero)
      Big.make_consts.

Definition level_margin_bounds : Big.bounds :=
  Eval vm_compute in
    default Big.exact_zero (Big.ln_bounds (BigZ.of_Z level_margin)).

Definition exp_margin_bounds : Big.bounds :=
  Eval vm_compute in
    default Big.exact_zero (Big.ln_bounds (BigZ.of_Z exp_margin)).

(** ** Range labels

    The labels that have the form of a range: an integer literal, or two
    of them around one ["-"].  An integer literal is white space, an
    optional ["+"], digits that single underscores may separate, white
    space.  (A ["-"] sign never reaches [int]: the label is split at
    every ["-"] first.)  [parse_exp_range] falls back on every other
    label, and on a range label only when one of its numbers has more
    than [max_str_digits] digits. *)

Fixpoint all_space (s : string) : bool :=
  match s with
  | String c s' => is_space c && all_space s'
  | EmptyString => true
  end.

Definition is_digit (c : ascii) : bool :=
  match digit_value c with
  | Some _ => true
  | None => false
  end.





(** The number of digits of the decimal notation of a natural number. *)
Definition decimal_digits (n : N) : Z :=
  Z.of_nat (String.length
              (DecimalString.NilZero.string_of_uint (N.to_uint n))).

(** A label of 4301 digits, one more than [int] converts: 4298 zeros
    before 500. *)
Definition long_label : string := N.iter 4298 (String "0") "500".

(** The sum of a column, and of the values of the dictionary. *)
Definition Zsum (l : list Z) : Z := foldr Z.add 0%Z l.

Definition map_total (m : gmap Z Z) : Z := Zsum ((map_to_list m).*2).

(** ** The inverse mapping, read from the table

    What [level_to_min_exp] returns: 0 up to level 1, the cap from level
    50 on, and between them the EXP just below the threshold. *)

Definition min_exp_table (L : Z) : Z :=
  if (L <=? 1)%Z then 0%Z
  else if (50 <=? L)%Z then 50000%Z
  else (threshold L - 1)%Z.

#[global] Instance exn_eq_dec : EqDecision exn.
Proof. solve_decision. Defined.

#[global] Instance result_eq_dec {A} `{EqDecision A} : EqDecision (result A).
Proof. solve_decision. Defined.

(** ** The aggregation, row by row

    The midpoint at which a row is counted, the rows of a table that are
    counted at the level [L], and the sum of their counts. *)

Definition mid_exp (r : row) : Z :=
  ((parse_exp_range (exp_group r)).1 + (parse_exp_range (exp_group r)).2)
    `div` 2.

Definition rows_at (L : Z) (df : list row) : list row :=
  filter (λ r, row_level r = Ok L) df.

Definition count_at (L : Z) (df : list row) : Z :=
  Zsum (count <$> rows_at L df).

(** ** core/chart.py: the old level system *)

Definition old_exp_to_level (exp : Z) : Z :=
  if bool_decide (exp < 0)%Z then 1%Z
  else if bool_decide (exp < 200)%Z then 1%Z
  else if bool_decide (exp < 1000)%Z then 2%Z
  else if bool_decide (exp < 5000)%Z then 3%Z
  else if bool_decide (exp < 10000)%Z then 4%Z
  else if bool_decide (exp < 50000)%Z then 5%Z
  else 6%Z.

(** ** [str(n)] for an [int] [n]

    The f-strings and [csv.writer] turn the integers they are given into
    text.  An [int] of more than [max_str_digits] digits, the sign not
    counted, raises [ValueError] there; [str_limit], which is
    [10 ^ max_str_digits], is the least positive one.  The messages and
    the cells below keep the number in place of its text, and
    [str_defined] tells whether the text exists. *)

Definition str_limit : Z := Eval vm_compute in (10 ^ 4300)%Z.

Definition str_defined (n : Z) : bool :=
  bool_decide (Z.abs n < str_limit)%Z.

(** ** core/sql_generator.py: the migration table

    A cell of a CSV row is a [str] or an [int]; a row is the list that
    [writer.writerow] is given.  The function returns the rows it has
    written and the way it ended: the [with] block closes the file when
    an exception leaves it, so the rows written before stay in the file.
    (The message printed after the block tells nothing more than [Ok].) *)

Inductive cell : Type :=
| Text (s : string)
| Int (z : Z).

Definition cell_defined (c : cell) : bool :=
  match c with
  | Text _ => true
  | Int z => str_defined z
  end.

(** [writer.writerow(r)] builds the whole line before it writes it: when
    a cell has no text, nothing of the row reaches the file. *)
Definition writerow (r : list cell) : list (list cell) * result () :=
  if forallb cell_defined r then ([r], Ok ()) else ([], Raise ValueError).

(** The loop over [user_data]. *)
Fixpoint write_users (user_data : list (Z * Z))
  : list (list cell) * result () :=
  match user_data with
  | [] => ([], Ok ())
  | (uid, exp) :: user_data' =>
      match exp_to_level exp with
      | Ok new_level =>
          let old_level := Z.min 50 (Z.max 1 (exp `div` 1000 + 1)) in
          match writerow [Int uid; Int exp; Int old_level; Int new_level] with
          | (out, Ok _) =>
              let '(rows, r) := write_users user_data' in
              (out ++ rows, r)
          | (out, Raise e) => (out, Raise e)
          end
      | Raise e => ([], Raise e)
      end
  end.

Definition csv_header : list cell :=
  [Text "uid"; Text "exp"; Text "old_level"; Text "new_level"].

Definition generate_user_migration_csv (user_data : list (Z * Z))
  : list (list cell) * result () :=
  match writerow csv_header with
  | (out, Ok _) =>
      let '(rows, r) := write_users user_data in
      (out ++ rows, r)
  | (out, Raise e) => (out, Raise e)
  end.

(** A user whose row is written: the id and the EXP have a text, and the
    EXP has a level. *)
Definition writable (u : Z * Z) : Prop :=
  (Z.abs u.1 < str_limit ∧ - str_limit < u.2 < uint64_max)%Z.

(** ** The query commands: [interactive_query] of core/query.py and
    [cmd_query] of main.py

    A [print] is a [message]: one constructor for each text, with the
    values that the text interpolates.  [input] takes the next [event]: a
    line that was typed, or a [KeyboardInterrupt] that arrives while it
    waits; when no event is left the input is at its end and [input]
    raises [EOFError].  A command returns the messages it has printed and
    its [ending]. *)

Inductive message : Type :=
| Title
| QuitHint
| Prompt
| Goodbye
| ResultHeader
| ExpLine (exp : Z)
| LevelLine (level : Z)
| CurrentRangeLine (min_exp : Z) (max_exp : bound)
| RemainingLine (remaining_exp : Z)
| MaxLevelLine
| InvalidNumber
| Interrupted
| MinExpLine (min_exp : Z)
| RangeLine (min_exp : Z) (max_exp : bound)
| LevelOutOfRange
| Usage.

Inductive event : Type :=
| Typed (s : string)
| KeyboardInterrupt.

Inductive ending : Type :=
| Returns
| Raises (e : exn)
| RaisesEOFError.

(** [str.strip()] and [str.lower()].  Below U+0100 the white space of
    [str] is TAB..CR, FS..US, SPACE, NEL and NBSP, and the letters with a
    lower case of their own are A..Z and U+00C0..U+00DE but U+00D7. *)

Definition isspace (c : ascii) : bool :=
  let n := N_of_ascii c in
  ((9 <=? n) && (n <=? 13) || (28 <=? n) && (n <=? 32)
   || (n =? 133) || (n =? 160))%N.

Fixpoint strip_left (s : string) : string :=
  match s with
  | String c s' => if isspace c then strip_left s' else s
  | EmptyString => EmptyString
  end.

Fixpoint strip_right (s : string) : string :=
  match s with
  | String c s' =>
      match strip_right s' with
      | EmptyString => if isspace c then EmptyString else String c EmptyString
      | String _ _ as t => String c t
      end
  | EmptyString => EmptyString
  end.

Definition strip (s : string) : string := strip_right (strip_left s).

Definition lower_char (c : ascii) : ascii :=
  let n := N_of_ascii c in
  if ((65 <=? n) && (n <=? 90)
      || (192 <=? n) && (n <=? 222) && negb (n =? 215))%N
  then ascii_of_N (n + 32)
  else c.

Fixpoint lower (s : string) : string :=
  match s with
  | String c s' => String (lower_char c) (lower s')
  | EmptyString => EmptyString
  end.

(** A string of white space only. *)
Fixpoint blank (s : string) : bool :=
  match s with
  | String c s' => isspace c && blank s'
  | EmptyString => true
  end.

(** Whether the text of a message exists: every integer that it
    interpolates has one.  The upper end [float("inf")] is printed as a
    fixed text. *)
Definition formats (m : message) : bool :=
  match m with
  | ExpLine z | LevelLine z | RemainingLine z | MinExpLine z => str_defined z
  | CurrentRangeLine lo hi | RangeLine lo hi =>
      str_defined lo
      && match hi with
         | Finite h => str_defined h
         | Infinity => true
         end
  | _ => true
  end.

(** [print(...)] of each message in turn.  The text is built before it is
    printed: a message without a text raises [ValueError], and neither it
    nor the messages after it are printed. *)
Fixpoint print_all (ms : list message) : list message * result () :=
  match ms with
  | [] => ([], Ok ())
  | m :: ms' =>
      if formats m then
        let '(out, r) := print_all ms' in
        (m :: out, r)
      else ([], Raise ValueError)
  end.

(** The block that [cmd_query] and [interactive_query] share: the level of
    an EXP, its range and the EXP still missing for the next level.
    [cmd_query] prints a header line first. *)
Definition exp_report (header : list message) (exp : Z)
  : list message * result () :=
  match exp_to_level exp with
  | Raise e => ([], Raise e)
  | Ok level =>
      match get_level_range level with
      | Raise e => ([], Raise e)
      | Ok (min_exp, max_exp) =>
          match print_all (header
                           ++ [ExpLine exp; LevelLine level;
                               CurrentRangeLine min_exp max_exp]) with
          | (out, Raise e) => (out, Raise e)
          | (out, Ok _) =>
              if bool_decide (level < 50)%Z then
                match level_to_min_exp (level + 1) with
                | Raise e => (out, Raise e)
                | Ok next_level_min =>
                    let remaining_exp := (next_level_min - exp)%Z in
                    let '(out', r) :=
                      print_all [RemainingLine remaining_exp] in
                    (out ++ out', r)
                end
              else
                let '(out', r) := print_all [MaxLevelLine] in
                (out ++ out', r)
          end
      end
  end.

(** The body of the [try] of [interactive_query] once [input] has
    returned the line [s]; [Ok true] stands for [break]. *)
Definition interactive_body (s : string) : list message * result bool :=
  let user_input := strip s in
  if String.eqb (lower user_input) "q" then ([Goodbye], Ok true)
  else
    match py_int user_input with
    | Raise e => ([], Raise e)
    | Ok exp =>
        let '(out, r) := exp_report [] exp in
        (out, r ≫= λ _, Ok false)
    end.

(** The [while True] loop: [ValueError], from [int] or from a [print] of
    the report, is handled by a message and the loop goes on,
    [KeyboardInterrupt] by a message and [break]; any other exception
    leaves the function. *)
Fixpoint interactive_loop (inputs : list event) : list message * ending :=
  match inputs with
  | [] => ([Prompt], RaisesEOFError)
  | KeyboardInterrupt :: _ => ([Prompt; Interrupted], Returns)
  | Typed s :: inputs' =>
      match interactive_body s with
      | (out, Ok true) => (Prompt :: out, Returns)
      | (out, Ok false) =>
          let '(out', e) := interactive_loop inputs' in
          (Prompt :: out ++ out', e)
      | (out, Raise ValueError) =>
          let '(out', e) := interactive_loop inputs' in
          (Prompt :: out ++ InvalidNumber :: out', e)
      | (out, Raise e) => (Prompt :: out, Raises e)
      end
  end.

Definition interactive_query (inputs : list event)
  : list message * ending :=
  let '(out, e) := interactive_loop inputs in
  (Title :: QuitHint :: out, e).

(** The arguments of the [query] command, as [argparse] leaves them. *)
Record args : Type :=
  Args { interactive : bool; arg_exp : option Z; arg_level : option Z }.

Definition cmd_query (a : args) (inputs : list event)
  : list message * ending :=
  if interactive a then interactive_query inputs
  else
    match arg_exp a with
    | Some exp =>
        match exp_report [ResultHeader] exp with
        | (out, Ok _) => (out, Returns)
        | (out, Raise e) => (out, Raises e)
        end
    | None =>
        match arg_level a with
        | Some level =>
            if bool_decide (1 ≤ level ≤ 50)%Z then
              match level_to_min_exp level with
              | Raise e => ([], Raises e)
              | Ok min_exp =>
                  match (if bool_decide (level < 50)%Z
                         then n ← level_to_min_exp (level + 1);
                              Ok (Finite (n - 1))
                         else Ok Infinity) with
                  | Raise e => ([], Raises e)
                  | Ok max_exp =>
                      match print_all [ResultHeader; LevelLine level;
                                       MinExpLine min_exp;
                                       RangeLine min_exp max_exp] with
                      | (out, Ok _) => (out, Returns)
                      | (out, Raise e) => (out, Raises e)
                      end
                  end
              end
            else ([LevelOutOfRange], Returns)
        | None => ([Usage], Returns)
        end
    end.

(** Whether an event ends the session of [interactive_query], and how:
    a [KeyboardInterrupt] or a line that reads [q] returns; a line that
    [int] reads as an integer from [2^64 - 1] on raises [TypeError]. *)
Definition stops (ev : event) : option ending :=
  match ev with
  | KeyboardInterrupt => Some Returns
  | Typed s =>
      if String.eqb (lower (strip s)) "q" then Some Returns
      else
        match py_int (strip s) with
        | Ok exp =>
            if bool_decide (uint64_max ≤ exp)%Z then Some (Raises TypeError)
            else None
        | Raise _ => None
        end
  end.

Fixpoint first_stop (inputs : list event) : ending :=
  match inputs with
  | [] => RaisesEOFError
  | ev :: inputs' =>
      match stops ev with
      | Some e => e
      | None => first_stop inputs'
      end
  end.

(** * Proofs *)

(** ** Soundness of the enclosures *)

Section EnclosureSoundness.
Local Open Scope R_scope.
Variable p : Z.
Hypothesis p_nonneg : (0 <= p)%Z.

Let P : R := IZR (2 ^ p).

Lemma P_pos : 0 < P.
Proof. apply IZR_lt. apply Z.pow_pos_nonneg; lia. Qed.

Lemma shiftr_dn (x : Z) : IZR (Z.shiftr x p) * P <= IZR x.
Proof.
  unfold P. rewrite Z.shiftr_div_pow2 by lia. rewrite <- mult_IZR.
  apply IZR_le. rewrite Z.mul_comm. apply Z.mul_div_le.
  apply Z.pow_pos_nonneg; lia.
Qed.

Lemma shiftr_up (x : Z) : IZR x <= IZR (Z.shiftr (x + 2 ^ p - 1) p) * P.
Proof.
  unfold P. rewrite Z.shiftr_div_pow2 by lia. rewrite <- mult_IZR.
  apply IZR_le.
  assert (H : (0 < 2 ^ p)%Z) by (apply Z.pow_pos_nonneg; lia).
  pose proof (Z.div_mod (x + 2 ^ p - 1) (2 ^ p) ltac:(lia)) as Hd.
  pose proof (Z.mod_pos_bound (x + 2 ^ p - 1) (2 ^ p) H) as Hm.
  lia.
Qed.

Lemma sq_dn_nonneg (x : Z) : (0 <= Encl.sq_dn p x)%Z.
Proof.
  unfold Encl.sq_dn. apply Z.shiftr_nonneg. apply Z.square_nonneg.
Qed.

Lemma sq_dn_sound (x : Z) (E : R) :
  (0 <= x)%Z -> IZR x / P <= E -> IZR (Encl.sq_dn p x) / P <= E * E.
Proof.
  intros Hx HE. pose proof P_pos as HP.
  assert (Hx' : 0 <= IZR x / P).
  { apply Rmult_le_pos; [apply IZR_le; lia|].
    left. now apply Rinv_0_lt_compat. }
  apply Rle_trans with (IZR x / P * (IZR x / P)).
  - pose proof (shiftr_dn (x * x)) as Hs. rewrite mult_IZR in Hs.
    unfold Encl.sq_dn.
    apply Rmult_le_reg_r with (P * P); [nra|].
    replace (IZR (Z.shiftr (x * x) p) / P * (P * P))
      with (IZR (Z.shiftr (x * x) p) * P) by (field; lra).
    replace (IZR x / P * (IZR x / P) * (P * P)) with (IZR x * IZR x)
      by (field; lra).
    exact Hs.
  - nra.
Qed.

Lemma sq_up_sound (x : Z) (E : R) :
  0 <= E -> E <= IZR x / P -> E * E <= IZR (Encl.sq_up p x) / P.
Proof.
  intros HE Hx. pose proof P_pos as HP.
  apply Rle_trans with (IZR x / P * (IZR x / P)); [nra|].
  pose proof (shiftr_up (x * x)) as Hs. rewrite mult_IZR in Hs.
  unfold Encl.sq_up.
  apply Rmult_le_reg_r with (P * P); [nra|].
  replace (IZR (Z.shiftr (x * x + 2 ^ p - 1) p) / P * (P * P))
    with (IZR (Z.shiftr (x * x + 2 ^ p - 1) p) * P) by (field; lra).
  replace (IZR x / P * (IZR x / P) * (P * P)) with (IZR x * IZR x)
    by (field; lra).
  exact Hs.
Qed.

Lemma exp_double (y : R) : exp (2 * y) = exp y * exp y.
Proof. replace (2 * y) with (y + y) by lra. apply exp_plus. Qed.

Lemma iter_sq_dn_sound (k : nat) : forall (x : Z) (y : R),
  (0 <= x)%Z -> IZR x / P <= exp y ->
  IZR (Encl.iter_sq (Encl.sq_dn p) k x) / P <= exp (2 ^ k * y).
Proof.
  induction k as [|k IH]; intros x y Hx Hy; simpl.
  - now rewrite Rmult_1_l.
  - replace (2 * 2 ^ k * y) with (2 ^ k * (2 * y)) by ring.
    apply IH; [apply sq_dn_nonneg|].
    rewrite exp_double. now apply sq_dn_sound.
Qed.

Lemma iter_sq_up_sound (k : nat) : forall (x : Z) (y : R),
  exp y <= IZR x / P ->
  exp (2 ^ k * y) <= IZR (Encl.iter_sq (Encl.sq_up p) k x) / P.
Proof.
  induction k as [|k IH]; intros x y Hy; simpl.
  - now rewrite Rmult_1_l.
  - replace (2 * 2 ^ k * y) with (2 ^ k * (2 * y)) by ring.
    apply IH. rewrite exp_double. apply sq_up_sound; [|exact Hy].
    left. apply exp_pos.
Qed.

Variable D : Z.
Hypothesis D_pos : (0 < D)%Z.

Lemma exp_lo_sound (k : nat) (n : Z) :
  (0 <= n)%Z ->
  IZR (Encl.exp_lo p D k n) / P <= exp (2 ^ k * (IZR n / IZR D)).
Proof.
  intros Hn. unfold Encl.exp_lo. pose proof P_pos as HP.
  assert (HD : 0 < IZR D) by now apply IZR_lt.
  assert (H2p : (0 < 2 ^ p)%Z) by (apply Z.pow_pos_nonneg; lia).
  apply iter_sq_dn_sound.
  - pose proof (Z.div_pos (n * 2 ^ p) D ltac:(nia) D_pos). lia.
  - apply Rle_trans with (1 + IZR n / IZR D); [|apply exp_ineq1_le].
    rewrite plus_IZR. fold P.
    assert (Hq : IZR (n * 2 ^ p / D) * IZR D <= IZR n * P).
    { unfold P. rewrite <- !mult_IZR. apply IZR_le.
      rewrite Z.mul_comm. apply Z.mul_div_le. exact D_pos. }
    apply Rmult_le_reg_r with (P * IZR D); [nra|].
    replace ((P + IZR (n * 2 ^ p / D)) / P * (P * IZR D))
      with (P * IZR D + IZR (n * 2 ^ p / D) * IZR D) by (field; lra).
    replace ((1 + IZR n / IZR D) * (P * IZR D))
      with (P * IZR D + IZR n * P) by (field; lra).
    lra.
Qed.

Lemma exp_hi_sound (k : nat) (n : Z) :
  (0 <= n < D)%Z ->
  exp (2 ^ k * (IZR n / IZR D)) <= IZR (Encl.exp_hi p D k n) / P.
Proof.
  intros Hn. unfold Encl.exp_hi. pose proof P_pos as HP.
  assert (HD : 0 < IZR D) by now apply IZR_lt.
  assert (Hn0 : 0 <= IZR n) by (apply IZR_le; lia).
  assert (HnD : IZR n < IZR D) by (apply IZR_lt; lia).
  apply iter_sq_up_sound.
  set (y := IZR n / IZR D).
  assert (Hy : 0 <= y < 1).
  { unfold y. split.
    - apply Rmult_le_pos; [lra|]. left. now apply Rinv_0_lt_compat.
    - apply Rmult_lt_reg_r with (IZR D); [lra|].
      replace (IZR n / IZR D * IZR D) with (IZR n) by (field; lra). lra. }
  apply Rle_trans with (/ (1 - y)).
  - pose proof (exp_ineq1_le (- y)) as He. rewrite exp_Ropp in He.
    pose proof (exp_pos y) as Hp.
    apply Rmult_le_reg_r with (1 - y); [lra|].
    rewrite Rinv_l by lra.
    apply Rmult_le_reg_l with (/ exp y); [now apply Rinv_0_lt_compat|].
    rewrite <- Rmult_assoc, Rinv_l by lra. lra.
  - set (q := ((2 ^ p * D + (D - n) - 1) / (D - n))%Z).
    assert (Hq : P * IZR D <= IZR q * (IZR D - IZR n)).
    { unfold P, q. rewrite <- minus_IZR, <- !mult_IZR. apply IZR_le.
      pose proof (Z.div_mod (2 ^ p * D + (D - n) - 1) (D - n) ltac:(lia)) as Hd.
      pose proof (Z.mod_pos_bound (2 ^ p * D + (D - n) - 1) (D - n) ltac:(lia)) as Hm.
      lia. }
    apply Rmult_le_reg_r with ((1 - y) * (P * IZR D)).
    { apply Rmult_lt_0_compat; [lra|nra]. }
    replace (/ (1 - y) * ((1 - y) * (P * IZR D))) with (P * IZR D)
      by (field; lra).
    replace (IZR q / P * ((1 - y) * (P * IZR D)))
      with (IZR q * (IZR D - IZR n)) by (unfold y; field; lra).
    exact Hq.
Qed.
End EnclosureSoundness.

(** ** The machine-word computation agrees with its statement on [Z] *)

Ltac big_to_Z :=
  repeat first
    [ rewrite BigZ.spec_add | rewrite BigZ.spec_sub | rewrite BigZ.spec_mul
    | rewrite BigZ.spec_div | rewrite BigZ.spec_pow
    | rewrite BigZ.spec_shiftr ].

Section BigSpec.
Local Open Scope Z_scope.

Lemma big_sq_dn (p x : bigZ) :
  BigZ.to_Z (Big.sq_dn p x) = Encl.sq_dn (BigZ.to_Z p) (BigZ.to_Z x).
Proof.
  unfold Big.sq_dn, Encl.sq_dn. big_to_Z. reflexivity.
Qed.

Lemma big_sq_up (p x : bigZ) :
  BigZ.to_Z (Big.sq_up p x) = Encl.sq_up (BigZ.to_Z p) (BigZ.to_Z x).
Proof.
  unfold Big.sq_up, Encl.sq_up. big_to_Z. reflexivity.
Qed.

Lemma big_iter_sq (fB : bigZ → bigZ) (fZ : Z → Z) (k : nat) :
  (∀ y, BigZ.to_Z (fB y) = fZ (BigZ.to_Z y)) →
  ∀ x, BigZ.to_Z (Big.iter_sq fB k x) = Encl.iter_sq fZ k (BigZ.to_Z x).
Proof.
  intros Hf. induction k as [|k IH]; intros x; simpl; [reflexivity|].
  now rewrite IH, Hf.
Qed.

Lemma big_exp_lo (p D : bigZ) (k : nat) (n : bigZ) :
  BigZ.to_Z (Big.exp_lo p D k n)
  = Encl.exp_lo (BigZ.to_Z p) (BigZ.to_Z D) k (BigZ.to_Z n).
Proof.
  unfold Big.exp_lo, Encl.exp_lo.
  rewrite (big_iter_sq _ (Encl.sq_dn (BigZ.to_Z p))) by apply big_sq_dn.
  big_to_Z. reflexivity.
Qed.

Lemma big_exp_hi (p D : bigZ) (k : nat) (n : bigZ) :
  BigZ.to_Z (Big.exp_hi p D k n)
  = Encl.exp_hi (BigZ.to_Z p) (BigZ.to_Z D) k (BigZ.to_Z n).
Proof.
  unfold Big.exp_hi, Encl.exp_hi.
  rewrite (big_iter_sq _ (Encl.sq_up (BigZ.to_Z p))) by apply big_sq_up.
  big_to_Z. reflexivity.
Qed.

Lemma big_p : BigZ.to_Z Big.p = Encl.p.
Proof. apply BigZ.spec_of_Z. Qed.

Lemma big_D : BigZ.to_Z Big.D = Encl.D.
Proof. apply BigZ.spec_of_Z. Qed.

Lemma big_g : BigZ.to_Z Big.g = Z.of_nat Encl.g.
Proof. apply BigZ.spec_of_Z. Qed.
End BigSpec.

(** ** Bounds of [ln] and of [ln (ln _)] at the working precision *)

Section LnBounds.
Local Open Scope R_scope.

Lemma ln_le_mono (x y : R) : 0 < x -> x <= y -> ln x <= ln y.
Proof.
  intros Hx [Hlt | ->]; [left; now apply ln_increasing | right; reflexivity].
Qed.

Lemma ln_le_of_exp (x y : R) : 0 < x -> x <= exp y -> ln x <= y.
Proof.
  intros Hx H. rewrite <- (ln_exp y). now apply ln_le_mono.
Qed.

Lemma ln_ge_of_exp (x y : R) : exp y <= x -> y <= ln x.
Proof.
  intros H. rewrite <- (ln_exp y) at 1. apply ln_le_mono; [apply exp_pos|exact H].
Qed.

Lemma p_ok : (0 <= Encl.p)%Z.
Proof. unfold Encl.p. lia. Qed.

Lemma D_ok : (0 < Encl.D)%Z.
Proof. reflexivity. Qed.

Lemma G_pos : 0 < IZR Encl.G.
Proof. apply IZR_lt. reflexivity. Qed.

Lemma D_eq : IZR Encl.D = IZR Encl.G * 2 ^ Encl.k.
Proof. unfold Encl.D. now rewrite mult_IZR, <- pow_IZR. Qed.

Lemma scale_G (n : Z) : 2 ^ Encl.k * (IZR n / IZR Encl.D) = IZR n / IZR Encl.G.
Proof.
  rewrite D_eq. pose proof G_pos.
  assert (0 < 2 ^ Encl.k) by (apply pow_lt; lra).
  field. split; lra.
Qed.

Lemma ln_G : ln (IZR Encl.G) = INR Encl.g * ln 2.
Proof. unfold Encl.G. rewrite <- pow_IZR. apply ln_pow. lra. Qed.

(** Multiplying a bound on the grid by [G]. *)
Lemma grid_le (x : R) (n : Z) : x <= IZR n / IZR Encl.G <-> x * IZR Encl.G <= IZR n.
Proof.
  pose proof G_pos as HG. split; intros H.
  - apply Rmult_le_reg_r with (/ IZR Encl.G); [now apply Rinv_0_lt_compat|].
    rewrite Rmult_assoc, Rinv_r by lra. unfold Rdiv in H. lra.
  - apply Rmult_le_reg_r with (IZR Encl.G); [exact HG|].
    unfold Rdiv. rewrite Rmult_assoc, Rinv_l by lra. lra.
Qed.

Lemma grid_ge (x : R) (n : Z) : IZR n / IZR Encl.G <= x <-> IZR n <= x * IZR Encl.G.
Proof.
  pose proof G_pos as HG. split; intros H.
  - apply Rmult_le_reg_r with (/ IZR Encl.G); [now apply Rinv_0_lt_compat|].
    rewrite Rmult_assoc, Rinv_r by lra. unfold Rdiv in H. lra.
  - apply Rmult_le_reg_r with (IZR Encl.G); [exact HG|].
    unfold Rdiv. rewrite Rmult_assoc, Rinv_l by lra. lra.
Qed.

Lemma ln_ub_sound (a u : bigZ) :
  (1 <= BigZ.to_Z a)%Z -> Big.ln_ub a = Some u ->
  (0 <= BigZ.to_Z u)%Z /\ ln (IZR (BigZ.to_Z a)) <= IZR (BigZ.to_Z u) / IZR Encl.G.
Proof.
  intros Ha. unfold Big.ln_ub.
  destruct (BigZ.eqb a 1) eqn:H1.
  { rewrite BigZ.spec_eqb in H1. apply Z.eqb_eq in H1.
    change (BigZ.to_Z 1) with 1%Z in H1. intros [= <-]. rewrite H1.
    change (BigZ.to_Z 0) with 0%Z. rewrite ln_1. unfold Rdiv. split; [lia|lra]. }
  set (u0 := (Big.approx_ln a + Big.slack)%bigZ).
  destruct (_ && _) eqn:Hc; [|discriminate].
  intros [= <-]. apply andb_true_iff in Hc as [H0 H2].
  rewrite BigZ.spec_leb in H0, H2. apply Z.leb_le in H0, H2.
  change (BigZ.to_Z 0) with 0%Z in H0.
  rewrite BigZ.spec_mul, BigZ.spec_pow, big_exp_lo, big_p, big_D in H2.
  change (BigZ.to_Z 2) with 2%Z in H2.
  split; [exact H0|].
  apply ln_le_of_exp; [apply IZR_lt; lia|].
  rewrite <- scale_G.
  eapply Rle_trans;
    [|apply (exp_lo_sound Encl.p p_ok Encl.D D_ok Encl.k (BigZ.to_Z u0) H0)].
  pose proof (P_pos Encl.p p_ok) as HP.
  apply Rmult_le_reg_r with (IZR (2 ^ Encl.p)); [exact HP|].
  unfold Rdiv. rewrite Rmult_assoc, Rinv_l, Rmult_1_r by lra.
  rewrite <- mult_IZR. now apply IZR_le.
Qed.

Lemma ln_lb_sound (a u : bigZ) :
  (1 <= BigZ.to_Z a)%Z -> Big.ln_lb a = Some u ->
  (0 <= BigZ.to_Z u)%Z /\ IZR (BigZ.to_Z u) / IZR Encl.G <= ln (IZR (BigZ.to_Z a)).
Proof.
  intros Ha. unfold Big.ln_lb.
  destruct (BigZ.eqb a 1) eqn:H1.
  { rewrite BigZ.spec_eqb in H1. apply Z.eqb_eq in H1.
    change (BigZ.to_Z 1) with 1%Z in H1. intros [= <-]. rewrite H1.
    change (BigZ.to_Z 0) with 0%Z. rewrite ln_1. unfold Rdiv. split; [lia|lra]. }
  set (u0 := (Big.approx_ln a - Big.slack)%bigZ).
  destruct (_ && _) eqn:Hc; [|discriminate].
  intros [= <-]. apply andb_true_iff in Hc as [Hc H2].
  apply andb_true_iff in Hc as [H0 H3].
  rewrite BigZ.spec_leb in H0, H2. rewrite BigZ.spec_ltb in H3.
  apply Z.leb_le in H0, H2. apply Z.ltb_lt in H3.
  change (BigZ.to_Z 0) with 0%Z in H0.
  rewrite BigZ.spec_mul, BigZ.spec_pow, big_exp_hi, big_p, big_D in H2.
  rewrite big_D in H3.
  change (BigZ.to_Z 2) with 2%Z in H2.
  split; [exact H0|].
  apply ln_ge_of_exp.
  rewrite <- scale_G.
  eapply Rle_trans;
    [apply (exp_hi_sound Encl.p p_ok Encl.D D_ok Encl.k (BigZ.to_Z u0)
              (conj H0 H3))|].
  pose proof (P_pos Encl.p p_ok) as HP.
  apply Rmult_le_reg_r with (IZR (2 ^ Encl.p)); [exact HP|].
  unfold Rdiv. rewrite Rmult_assoc, Rinv_l, Rmult_1_r by lra.
  rewrite <- mult_IZR. now apply IZR_le.
Qed.

Lemma ln_bounds_sound (a : bigZ) (B : Big.bounds) :
  (1 <= BigZ.to_Z a)%Z -> Big.ln_bounds a = Some B ->
  encloses B (ln (IZR (BigZ.to_Z a))).
Proof.
  intros Ha. unfold Big.ln_bounds.
  intros (lo & Hlo & (hi & Hhi & [= <-])%bind_Some)%bind_Some.
  unfold encloses. cbn [Big.lower Big.upper].
  apply ln_lb_sound in Hlo as [_ Hlo]; [|exact Ha].
  apply ln_ub_sound in Hhi as [_ Hhi]; [|exact Ha].
  split; assumption.
Qed.

Lemma encloses_zero : encloses Big.exact_zero 0.
Proof.
  unfold encloses, Big.exact_zero. cbn [Big.lower Big.upper].
  change (BigZ.to_Z 0) with 0%Z. unfold Rdiv. lra.
Qed.

Lemma ln_pos_2 (a : Z) : (2 <= a)%Z -> 0 < ln (IZR a).
Proof.
  intros Ha. rewrite <- ln_1. apply ln_increasing; [lra|].
  apply IZR_lt. lia.
Qed.

(** [ln (u / G) = ln u - g * ln 2]. *)
Lemma ln_grid (u : Z) :
  (1 <= u)%Z ->
  ln (IZR u / IZR Encl.G) = ln (IZR u) - INR Encl.g * ln 2.
Proof.
  intros Hu. pose proof G_pos.
  unfold Rdiv. rewrite ln_mult, ln_Rinv, ln_G; try lra.
  - apply IZR_lt. lia.
  - now apply Rinv_0_lt_compat.
Qed.

Lemma lnln_ub_sound (B2 : Big.bounds) (a : bigZ) (Bb : Big.bounds)
    (beta : R) (w : bigZ) :
  encloses B2 (ln 2) ->
  IZR (BigZ.to_Z (Big.lower Bb)) / IZR Encl.G <= beta ->
  (1 <= BigZ.to_Z a)%Z -> 0 < ln (IZR (BigZ.to_Z a)) - beta ->
  Big.lnln_ub B2 a Bb = Some w ->
  ln (ln (IZR (BigZ.to_Z a)) - beta) <= IZR (BigZ.to_Z w) / IZR Encl.G.
Proof.
  intros [H2 _] Hb Ha Hpos. unfold Big.lnln_ub.
  intros (hi & Hhi & H)%bind_Some.
  destruct (BigZ.leb _ _) eqn:Hu; [|discriminate].
  cbv beta iota in H. apply bind_Some in H as (v & Hv & Hw).
  apply (inj Some) in Hw. subst w.
  rewrite BigZ.spec_leb in Hu. apply Z.leb_le in Hu.
  change (BigZ.to_Z 1) with 1%Z in Hu.
  apply ln_ub_sound in Hhi as [_ Hhi]; [|exact Ha].
  apply ln_ub_sound in Hv as [_ Hv]; [|exact Hu].
  rewrite BigZ.spec_sub in Hu, Hv.
  set (u := (BigZ.to_Z hi - BigZ.to_Z (Big.lower Bb))%Z) in *.
  pose proof G_pos as HG.
  apply Rle_trans with (ln (IZR u / IZR Encl.G)).
  { apply ln_le_mono; [exact Hpos|].
    unfold u. rewrite minus_IZR. unfold Rdiv in *. lra. }
  rewrite ln_grid by exact Hu.
  rewrite BigZ.spec_sub, BigZ.spec_mul, big_g.
  rewrite minus_IZR, mult_IZR, <- INR_IZR_INZ.
  assert (Hg : 0 <= INR Encl.g) by apply pos_INR.
  unfold Rdiv in *. rewrite Rmult_minus_distr_r.
  apply Rplus_le_compat; [exact Hv|].
  apply Ropp_le_contravar. rewrite Rmult_assoc.
  apply Rmult_le_compat_l; [exact Hg|exact H2].
Qed.

Lemma lnln_lb_sound (B2 : Big.bounds) (a : bigZ) (Bb : Big.bounds)
    (beta : R) (w : bigZ) :
  encloses B2 (ln 2) ->
  beta <= IZR (BigZ.to_Z (Big.upper Bb)) / IZR Encl.G ->
  (1 <= BigZ.to_Z a)%Z ->
  Big.lnln_lb B2 a Bb = Some w ->
  0 < ln (IZR (BigZ.to_Z a)) - beta
  /\ IZR (BigZ.to_Z w) / IZR Encl.G <= ln (ln (IZR (BigZ.to_Z a)) - beta).
Proof.
  intros [_ H2] Hb Ha. unfold Big.lnln_lb.
  intros (lo & Hlo & H)%bind_Some.
  destruct (BigZ.leb _ _) eqn:Hu; [|discriminate].
  cbv beta iota in H. apply bind_Some in H as (v & Hv & Hw).
  apply (inj Some) in Hw. subst w.
  rewrite BigZ.spec_leb in Hu. apply Z.leb_le in Hu.
  change (BigZ.to_Z 1) with 1%Z in Hu.
  apply ln_lb_sound in Hlo as [_ Hlo]; [|exact Ha].
  apply ln_lb_sound in Hv as [_ Hv]; [|exact Hu].
  rewrite BigZ.spec_sub in Hu, Hv.
  set (u := (BigZ.to_Z lo - BigZ.to_Z (Big.upper Bb))%Z) in *.
  pose proof G_pos as HG.
  assert (Hupos : 0 < IZR u / IZR Encl.G).
  { apply Rmult_lt_0_compat; [apply IZR_lt; lia|now apply Rinv_0_lt_compat]. }
  assert (Hux : IZR u / IZR Encl.G <= ln (IZR (BigZ.to_Z a)) - beta).
  { unfold u. rewrite minus_IZR. unfold Rdiv in *. lra. }
  split; [lra|].
  apply Rle_trans with (ln (IZR u / IZR Encl.G)).
  2:{ now apply ln_le_mono. }
  rewrite ln_grid by exact Hu.
  rewrite BigZ.spec_sub, BigZ.spec_mul, big_g.
  rewrite minus_IZR, mult_IZR, <- INR_IZR_INZ.
  assert (Hg : 0 <= INR Encl.g) by apply pos_INR.
  unfold Rdiv in *. rewrite Rmult_minus_distr_r.
  apply Rplus_le_compat; [exact Hv|].
  apply Ropp_le_contravar. rewrite Rmult_assoc.
  apply Rmult_le_compat_l; [exact Hg|exact H2].
Qed.

Lemma to_Z_2 : BigZ.to_Z 2 = 2%Z.
Proof. reflexivity. Qed.

Lemma to_Z_49 : BigZ.to_Z 49 = 49%Z.
Proof. reflexivity. Qed.

Lemma to_Z_50001 : BigZ.to_Z 50001 = 50001%Z.
Proof. reflexivity. Qed.

Lemma make_consts_sound (C : Big.consts) :
  Big.make_consts = Some C ->
  encloses (Big.c_ln2 C) (ln 2)
  /\ encloses (Big.c_ln49 C) (ln 49)
  /\ encloses (Big.c_lnlncap C) (ln (ln 50001)).
Proof.
  unfold Big.make_consts.
  intros (B2 & H2 & (B49 & H49 & (lo & Hlo & (hi & Hhi & [= <-])%bind_Some)
            %bind_Some)%bind_Some)%bind_Some.
  cbn [Big.c_ln2 Big.c_ln49 Big.c_lnlncap].
  apply ln_bounds_sound in H2; [|rewrite to_Z_2; lia].
  apply ln_bounds_sound in H49; [|rewrite to_Z_49; lia].
  rewrite to_Z_2 in H2. rewrite to_Z_49 in H49.
  pose proof encloses_zero as [Hz1 Hz2].
  pose proof (ln_pos_2 50001 ltac:(lia)) as Hpos.
  apply (lnln_lb_sound B2 50001%bigZ Big.exact_zero 0) in Hlo as [_ Hlo];
    [|exact H2|exact Hz2|rewrite to_Z_50001; lia].
  apply (lnln_ub_sound B2 50001%bigZ Big.exact_zero 0) in Hhi;
    [|exact H2|exact Hz1|rewrite to_Z_50001; lia
     |rewrite to_Z_50001, Rminus_0_r; exact Hpos].
  rewrite to_Z_50001, Rminus_0_r in Hlo, Hhi.
  split; [exact H2|]. split; [exact H49|].
  unfold encloses. cbn [Big.lower Big.upper]. split; assumption.
Qed.
End LnBounds.

(** ** The continuous level against a rational level *)

Section LevelBounds.
Local Open Scope R_scope.

Lemma gamma_pos : 0 < gamma.
Proof. unfold gamma. lra. Qed.

Lemma ln_cap_pos : 0 < ln (IZR (exp_cap + 1)).
Proof. apply ln_pos_2. unfold exp_cap. lia. Qed.

Lemma ln_gt_0 (x : R) : 1 < x -> 0 < ln x.
Proof. intros Hx. rewrite <- ln_1. apply ln_increasing; lra. Qed.

Lemma ln_base_at (x : R) :
  1 < x ->
  0 < ln x / ln (IZR (exp_cap + 1))
  /\ ln (ln x / ln (IZR (exp_cap + 1))) = ln (ln x) - ln (ln 50001).
Proof.
  intros Hx. pose proof (ln_gt_0 x Hx) as HA. pose proof ln_cap_pos as HC.
  change (IZR (exp_cap + 1)) with 50001 in *.
  split.
  - apply Rmult_lt_0_compat; [exact HA|now apply Rinv_0_lt_compat].
  - unfold Rdiv. rewrite ln_mult, ln_Rinv; try lra.
    now apply Rinv_0_lt_compat.
Qed.

Lemma ln_quot (n d : R) : 0 < n -> 0 < d -> ln (n / d) = ln n - ln d.
Proof.
  intros Hn Hd. unfold Rdiv. rewrite ln_mult, ln_Rinv; try lra.
  now apply Rinv_0_lt_compat.
Qed.

Lemma level_at_lt (x r : R) :
  1 < x -> 0 < r ->
  gamma * (ln (ln x) - ln (ln 50001)) < ln r - ln 49 ->
  level_at x < 1 + r.
Proof.
  intros Hx Hr H. destruct (ln_base_at x Hx) as [Hpos Hln].
  assert (Hp : Rpower (ln x / ln (IZR (exp_cap + 1))) gamma < r / 49).
  { unfold Rpower. rewrite <- (exp_ln (r / 49)) by lra.
    apply exp_increasing. rewrite Hln, ln_quot by lra. exact H. }
  unfold level_at. lra.
Qed.

Lemma level_at_gt (x r : R) :
  1 < x -> 0 < r ->
  ln r - ln 49 < gamma * (ln (ln x) - ln (ln 50001)) ->
  1 + r < level_at x.
Proof.
  intros Hx Hr H. destruct (ln_base_at x Hx) as [Hpos Hln].
  assert (Hp : r / 49 < Rpower (ln x / ln (IZR (exp_cap + 1))) gamma).
  { unfold Rpower. rewrite <- (exp_ln (r / 49)) by lra.
    apply exp_increasing. rewrite Hln, ln_quot by lra. exact H. }
  unfold level_at. lra.
Qed.

Lemma level_at_mono (x y : R) : 1 < x -> x <= y -> level_at x <= level_at y.
Proof.
  intros Hx Hxy. unfold level_at.
  destruct (ln_base_at x Hx) as [H1 _]. pose proof ln_cap_pos as HC.
  apply Rplus_le_compat_l, Rmult_le_compat_l; [lra|].
  apply Rle_Rpower_l; [left; apply gamma_pos|].
  split; [exact H1|].
  apply Rmult_le_compat_r; [left; now apply Rinv_0_lt_compat|].
  apply ln_le_mono; lra.
Qed.

Variable C : Big.consts.
Hypothesis C_ok : Big.make_consts = Some C.

Lemma check_lt_logs (a : bigZ) (Bb : Big.bounds) (n : bigZ) (Bd : Big.bounds)
    (beta delta : R) :
  IZR (BigZ.to_Z (Big.lower Bb)) / IZR Encl.G <= beta ->
  delta <= IZR (BigZ.to_Z (Big.upper Bd)) / IZR Encl.G ->
  (1 <= BigZ.to_Z a)%Z -> (1 <= BigZ.to_Z n)%Z ->
  0 < ln (IZR (BigZ.to_Z a)) - beta ->
  Big.check_lt C a Bb n Bd = true ->
  gamma * (ln (ln (IZR (BigZ.to_Z a)) - beta) - ln (ln 50001))
  < ln (IZR (BigZ.to_Z n)) - delta - ln 49.
Proof.
  intros Hb Hd Ha Hn Hpos. unfold Big.check_lt.
  destruct (make_consts_sound C C_ok) as (H2 & [_ H49] & [Hcap _]).
  destruct (Big.lnln_ub _ a Bb) as [w|] eqn:Hw; [|discriminate].
  destruct (Big.ln_lb n) as [x|] eqn:Hx; [|discriminate].
  intros Hc. rewrite BigZ.spec_ltb in Hc. apply Z.ltb_lt in Hc.
  big_to_Z. rewrite !BigZ.spec_mul, !BigZ.spec_sub in Hc.
  change (BigZ.to_Z 345) with 345%Z in Hc.
  change (BigZ.to_Z 100) with 100%Z in Hc.
  apply IZR_lt in Hc. rewrite !mult_IZR, !minus_IZR in Hc.
  apply (lnln_ub_sound _ a Bb beta w H2 Hb Ha Hpos) in Hw.
  apply ln_lb_sound in Hx as [_ Hx]; [|exact Hn].
  apply grid_le in Hw, Hd, H49. apply grid_ge in Hx, Hcap.
  pose proof G_pos as HG. unfold gamma.
  apply Rmult_lt_reg_r with (100 * IZR Encl.G); [lra|].
  replace (345 / 100 * (ln (ln (IZR (BigZ.to_Z a)) - beta) - ln (ln 50001))
           * (100 * IZR Encl.G))
    with (345 * (ln (ln (IZR (BigZ.to_Z a)) - beta) * IZR Encl.G
                 - ln (ln 50001) * IZR Encl.G)) by (field; lra).
  replace ((ln (IZR (BigZ.to_Z n)) - delta - ln 49) * (100 * IZR Encl.G))
    with (100 * (ln (IZR (BigZ.to_Z n)) * IZR Encl.G - delta * IZR Encl.G
                 - ln 49 * IZR Encl.G)) by ring.
  lra.
Qed.

Lemma check_gt_logs (a : bigZ) (Bb : Big.bounds) (n : bigZ) (Bd : Big.bounds)
    (beta delta : R) :
  beta <= IZR (BigZ.to_Z (Big.upper Bb)) / IZR Encl.G ->
  IZR (BigZ.to_Z (Big.lower Bd)) / IZR Encl.G <= delta ->
  (1 <= BigZ.to_Z a)%Z -> (1 <= BigZ.to_Z n)%Z ->
  Big.check_gt C a Bb n Bd = true ->
  0 < ln (IZR (BigZ.to_Z a)) - beta
  /\ ln (IZR (BigZ.to_Z n)) - delta - ln 49
     < gamma * (ln (ln (IZR (BigZ.to_Z a)) - beta) - ln (ln 50001)).
Proof.
  intros Hb Hd Ha Hn. unfold Big.check_gt.
  destruct (make_consts_sound C C_ok) as (H2 & [H49 _] & [_ Hcap]).
  destruct (Big.lnln_lb _ a Bb) as [w|] eqn:Hw; [|discriminate].
  destruct (Big.ln_ub n) as [x|] eqn:Hx; [|discriminate].
  intros Hc. rewrite BigZ.spec_ltb in Hc. apply Z.ltb_lt in Hc.
  rewrite !BigZ.spec_mul, !BigZ.spec_sub in Hc.
  change (BigZ.to_Z 345) with 345%Z in Hc.
  change (BigZ.to_Z 100) with 100%Z in Hc.
  apply IZR_lt in Hc. rewrite !mult_IZR, !minus_IZR in Hc.
  apply (lnln_lb_sound _ a Bb beta w H2 Hb Ha) in Hw as [Hpos Hw].
  apply ln_ub_sound in Hx as [_ Hx]; [|exact Hn].
  split; [exact Hpos|].
  apply grid_ge in Hw, Hd, H49. apply grid_le in Hx, Hcap.
  pose proof G_pos as HG. unfold gamma.
  apply Rmult_lt_reg_r with (100 * IZR Encl.G); [lra|].
  replace (345 / 100 * (ln (ln (IZR (BigZ.to_Z a)) - beta) - ln (ln 50001))
           * (100 * IZR Encl.G))
    with (345 * (ln (ln (IZR (BigZ.to_Z a)) - beta) * IZR Encl.G
                 - ln (ln 50001) * IZR Encl.G)) by (field; lra).
  replace ((ln (IZR (BigZ.to_Z n)) - delta - ln 49) * (100 * IZR Encl.G))
    with (100 * (ln (IZR (BigZ.to_Z n)) * IZR Encl.G - delta * IZR Encl.G
                 - ln 49 * IZR Encl.G)) by ring.
  lra.
Qed.

(** The two checks, read on the integers [a], [b], [n], [d]. *)
Lemma check_lt_level (a b n d : Z) (Bb Bd : Big.bounds) :
  encloses Bb (ln (IZR b)) -> encloses Bd (ln (IZR d)) ->
  (1 <= b < a)%Z -> (1 <= n)%Z -> (1 <= d)%Z ->
  Big.check_lt C (BigZ.of_Z a) Bb (BigZ.of_Z n) Bd = true ->
  level_at (IZR a / IZR b) < 1 + IZR n / IZR d.
Proof.
  intros [Hb _] [_ Hd] Hab Hn Hd1 Hc.
  assert (Ha0 : 0 < IZR a) by (apply IZR_lt; lia).
  assert (Hb0 : 0 < IZR b) by (apply IZR_lt; lia).
  assert (Hn0 : 0 < IZR n) by (apply IZR_lt; lia).
  assert (Hd0 : 0 < IZR d) by (apply IZR_lt; lia).
  assert (Hx : 1 < IZR a / IZR b).
  { apply Rmult_lt_reg_r with (IZR b); [exact Hb0|].
    unfold Rdiv. rewrite Rmult_assoc, Rinv_l, Rmult_1_r, Rmult_1_l by lra.
    apply IZR_lt. lia. }
  pose proof (ln_gt_0 _ Hx) as Hpos. rewrite ln_quot in Hpos by assumption.
  apply (check_lt_logs _ Bb _ Bd (ln (IZR b)) (ln (IZR d))) in Hc;
    rewrite ?BigZ.spec_of_Z in *; try assumption; try lia.
  apply level_at_lt; [exact Hx|now apply Rdiv_pos_pos|].
  rewrite !ln_quot by assumption. exact Hc.
Qed.

Lemma check_gt_level (a b n d : Z) (Bb Bd : Big.bounds) :
  encloses Bb (ln (IZR b)) -> encloses Bd (ln (IZR d)) ->
  (1 <= b)%Z -> (1 <= a)%Z -> (1 <= n)%Z -> (1 <= d)%Z ->
  Big.check_gt C (BigZ.of_Z a) Bb (BigZ.of_Z n) Bd = true ->
  1 < IZR a / IZR b /\ 1 + IZR n / IZR d < level_at (IZR a / IZR b).
Proof.
  intros [_ Hb] [Hd _] Hb1 Ha Hn Hd1 Hc.
  assert (Ha0 : 0 < IZR a) by (apply IZR_lt; lia).
  assert (Hb0 : 0 < IZR b) by (apply IZR_lt; lia).
  assert (Hn0 : 0 < IZR n) by (apply IZR_lt; lia).
  assert (Hd0 : 0 < IZR d) by (apply IZR_lt; lia).
  apply (check_gt_logs _ Bb _ Bd (ln (IZR b)) (ln (IZR d))) in Hc;
    rewrite ?BigZ.spec_of_Z in *; try assumption.
  destruct Hc as [Hpos Hc]. rewrite <- ln_quot in Hpos by assumption.
  assert (Hx : 1 < IZR a / IZR b).
  { apply ln_lt_inv; [lra|now apply Rdiv_pos_pos|]. now rewrite ln_1. }
  split; [exact Hx|].
  apply level_at_gt; [exact Hx|now apply Rdiv_pos_pos|].
  rewrite !ln_quot by assumption. exact Hc.
Qed.
End LevelBounds.

(** ** [exp_to_level] and [level_to_min_exp] against the table *)

Ltac zrange :=
unfold exp_cap, int64_min, uint64_max in *;
change (2 ^ 64)%Z with 18446744073709551616%Z in *;
change (2 ^ 63)%Z with 9223372036854775808%Z in *;
lia.

Section Table.
Local Open Scope R_scope.

Lemma int_of_float_floor (x : R) (z : Z) :
  0 <= x -> IZR z <= x < IZR z + 1 -> int_of_float x = z.
Proof.
  intros Hx Hz. unfold int_of_float.
  destruct (Rle_dec 0 x) as [_|Hn]; [|contradiction].
  now apply Zfloor_eq.
Qed.

Lemma np_log_in_range (n : Z) :
  (int64_min <= n <= uint64_max)%Z -> np_log n = Ok (ln (IZR n)).
Proof. intros Hn. unfold np_log. now rewrite bool_decide_eq_true_2. Qed.

Lemma np_log_too_large (n : Z) :
  (uint64_max < n)%Z -> np_log n = Raise TypeError.
Proof.
  intros Hn. unfold np_log. rewrite bool_decide_eq_false_2; [reflexivity|lia].
Qed.

Lemma np_log_cap : np_log (exp_cap + 1) = Ok (ln (IZR (exp_cap + 1))).
Proof. apply np_log_in_range. zrange. Qed.

(** Inside the range of [np.log], [exp_to_level] truncates the
    continuous level and caps it. *)
Lemma exp_to_level_continuous (e : Z) :
  (1 <= e < uint64_max)%Z ->
  exp_to_level e = Ok (Z.min 50 (int_of_float (continuous_level e))).
Proof.
  intros He. unfold exp_to_level.
  rewrite Z.max_l by lia.
  rewrite bool_decide_eq_false_2 by lia.
  rewrite (np_log_in_range (e + 1)) by zrange.
  rewrite np_log_cap. reflexivity.
Qed.

Lemma exp_to_level_nonpositive (e : Z) :
  (e <= 0)%Z -> exp_to_level e = Ok 1%Z.
Proof.
  intros He. unfold exp_to_level. rewrite Z.max_r by lia.
  now rewrite bool_decide_eq_true_2.
Qed.

Lemma exp_to_level_too_large (e : Z) :
  (uint64_max <= e)%Z -> exp_to_level e = Raise TypeError.
Proof.
  intros He. unfold exp_to_level. rewrite Z.max_l by zrange.
  rewrite bool_decide_eq_false_2 by zrange.
  rewrite (np_log_too_large (e + 1)) by lia. reflexivity.
Qed.

Lemma continuous_level_mono (e1 e2 : Z) :
  (1 <= e1 <= e2)%Z -> continuous_level e1 <= continuous_level e2.
Proof.
  intros He. apply level_at_mono.
  - apply IZR_lt. lia.
  - apply IZR_le. lia.
Qed.

Lemma continuous_level_gt_1 (e : Z) : 1 < continuous_level e.
Proof.
  unfold continuous_level, level_at, Rpower.
  pose proof (exp_pos (gamma * ln (ln (IZR (e + 1)) / ln (IZR (exp_cap + 1))))).
  lra.
Qed.

Lemma continuous_level_cap : continuous_level exp_cap = 50.
Proof.
  unfold continuous_level, level_at. pose proof ln_cap_pos as HC.
  replace (ln (IZR (exp_cap + 1)) / ln (IZR (exp_cap + 1))) with 1
    by (field; lra).
  unfold Rpower. rewrite ln_1, Rmult_0_r, exp_0. lra.
Qed.

Lemma Rpower_inv_lt (x r : R) :
  0 < x -> Rpower x gamma < r -> x < Rpower r (1 / gamma).
Proof.
  intros Hx H. pose proof gamma_pos as Hg.
  replace x with (Rpower (Rpower x gamma) (1 / gamma)).
  - apply Rlt_Rpower_l; [apply Rdiv_pos_pos; lra|].
    split; [apply exp_pos|exact H].
  - rewrite Rpower_mult.
    replace (gamma * (1 / gamma)) with 1 by (field; lra).
    now apply Rpower_1.
Qed.

Lemma Rpower_inv_gt (x r : R) :
  0 < x -> 0 < r -> r < Rpower x gamma -> Rpower r (1 / gamma) < x.
Proof.
  intros Hx Hr H. pose proof gamma_pos as Hg.
  replace x with (Rpower (Rpower x gamma) (1 / gamma)).
  - apply Rlt_Rpower_l; [apply Rdiv_pos_pos; lra|].
    split; [exact Hr|exact H].
  - rewrite Rpower_mult.
    replace (gamma * (1 / gamma)) with 1 by (field; lra).
    now apply Rpower_1.
Qed.

(** What [level_at x < L] and [L < level_at x] say about the continuous
    minimum EXP of level [L]. *)
Lemma min_exp_above (L : Z) (x : R) :
  (2 <= L)%Z -> 1 < x -> level_at x < IZR L -> x - 1 < continuous_min_exp L.
Proof.
  intros HL Hx H. pose proof ln_cap_pos as HC.
  destruct (ln_base_at x Hx) as [Hpos _].
  assert (Hr : Rpower (ln x / ln (IZR (exp_cap + 1))) gamma < IZR (L - 1) / 49).
  { unfold level_at in H. rewrite minus_IZR. lra. }
  apply Rpower_inv_lt in Hr; [|exact Hpos].
  apply Rmult_lt_compat_r with (r := ln (IZR (exp_cap + 1))) in Hr; [|exact HC].
  replace (ln x / ln (IZR (exp_cap + 1)) * ln (IZR (exp_cap + 1)))
    with (ln x) in Hr by (field; lra).
  apply exp_increasing in Hr. rewrite exp_ln in Hr by lra.
  unfold continuous_min_exp. lra.
Qed.

Lemma min_exp_below (L : Z) (x : R) :
  (2 <= L)%Z -> 1 < x -> IZR L < level_at x -> continuous_min_exp L < x - 1.
Proof.
  intros HL Hx H. pose proof ln_cap_pos as HC.
  destruct (ln_base_at x Hx) as [Hpos _].
  assert (H0 : 0 < IZR (L - 1) / 49).
  { apply Rdiv_pos_pos; [apply IZR_lt; lia|lra]. }
  assert (Hr : IZR (L - 1) / 49 < Rpower (ln x / ln (IZR (exp_cap + 1))) gamma).
  { unfold level_at in H. rewrite minus_IZR. lra. }
  apply Rpower_inv_gt in Hr; [|exact Hpos|exact H0].
  apply Rmult_lt_compat_r with (r := ln (IZR (exp_cap + 1))) in Hr; [|exact HC].
  replace (ln x / ln (IZR (exp_cap + 1)) * ln (IZR (exp_cap + 1)))
    with (ln x) in Hr by (field; lra).
  apply exp_increasing in Hr. rewrite exp_ln in Hr by lra.
  unfold continuous_min_exp. lra.
Qed.

Lemma level_to_min_exp_continuous (L : Z) :
  (2 <= L <= 49)%Z ->
  level_to_min_exp L = Ok (int_of_float (continuous_min_exp L)).
Proof.
  intros HL. unfold level_to_min_exp.
  rewrite bool_decide_eq_false_2 by lia.
  rewrite bool_decide_eq_false_2 by lia.
  rewrite np_log_cap. reflexivity.
Qed.
End Table.

(** ** The table is checked *)

Section Checked.
Local Open Scope R_scope.

Variable C : Big.consts.
Variables BK BX : Big.bounds.
Hypothesis C_ok : Big.make_consts = Some C.
Hypothesis BK_ok : Big.ln_bounds (BigZ.of_Z level_margin) = Some BK.
Hypothesis BX_ok : Big.ln_bounds (BigZ.of_Z exp_margin) = Some BX.

Let K : R := IZR level_margin.
Let X : R := IZR exp_margin.

Lemma K_pos : 0 < K.
Proof. apply IZR_lt. reflexivity. Qed.

Lemma X_pos : 0 < X.
Proof. apply IZR_lt. reflexivity. Qed.

Lemma BK_encloses : encloses BK (ln K).
Proof.
  pose proof (ln_bounds_sound (BigZ.of_Z level_margin) BK) as H.
  rewrite BigZ.spec_of_Z in H. apply H; [reflexivity || discriminate|exact BK_ok].
Qed.

Lemma BX_encloses : encloses BX (ln X).
Proof.
  pose proof (ln_bounds_sound (BigZ.of_Z exp_margin) BX) as H.
  rewrite BigZ.spec_of_Z in H. apply H; [reflexivity || discriminate|exact BX_ok].
Qed.

Lemma one_encloses : encloses Big.exact_zero (ln (IZR 1)).
Proof. rewrite ln_1. apply encloses_zero. Qed.

(** The four facts that [check_threshold] certifies. *)
Lemma check_threshold_sound (L t : Z) :
  (2 <= L)%Z -> (2 <= t)%Z -> check_threshold C BK BX L t = true ->
  continuous_level (t - 1) < IZR L - / K
  /\ IZR L + / K < continuous_level t
  /\ IZR t - 1 + / X < continuous_min_exp L
  /\ continuous_min_exp L < IZR t - / X.
Proof.
  intros HL Ht Hc. unfold check_threshold in Hc.
  apply andb_true_iff in Hc as [Hc H4]. apply andb_true_iff in Hc as [Hc H3].
  apply andb_true_iff in Hc as [H1 H2].
  pose proof K_pos as HK. pose proof X_pos as HX.
  assert (HKz : (1 <= level_margin)%Z) by (unfold level_margin; lia).
  assert (HXz : (1 <= exp_margin)%Z) by (unfold exp_margin; lia).
  apply (check_lt_level C C_ok t 1 _ level_margin _ _ one_encloses BK_encloses)
    in H1; try (unfold level_margin; lia).
  apply (check_gt_level C C_ok (t + 1) 1 _ level_margin _ _ one_encloses
           BK_encloses) in H2 as [_ H2]; try (unfold level_margin; lia).
  apply (check_lt_level C C_ok (t * exp_margin + 1) exp_margin (L - 1) 1 _ _
           BX_encloses one_encloses) in H3; try (unfold exp_margin; lia).
  apply (check_gt_level C C_ok ((t + 1) * exp_margin - 1) exp_margin (L - 1) 1
           _ _ BX_encloses one_encloses) in H4 as [Hx4 H4];
    try (unfold exp_margin; lia).
  fold K in H1, H2. fold X in H3, H4, Hx4.
  rewrite Rdiv_1_r in H1, H2, H3, H4.
  rewrite minus_IZR, mult_IZR, minus_IZR in H1.
  rewrite plus_IZR, mult_IZR, minus_IZR in H2.
  rewrite plus_IZR, mult_IZR in H3. rewrite minus_IZR in H3, H4.
  rewrite minus_IZR, mult_IZR, plus_IZR in H4, Hx4.
  fold K in H1, H2. fold X in H3, H4, Hx4.
  assert (E1 : 1 + ((IZR L - 1) * K - 1) / K = IZR L - / K) by (field; lra).
  assert (E2 : 1 + ((IZR L - 1) * K + 1) / K = IZR L + / K) by (field; lra).
  assert (E3 : (IZR t * X + 1) / X = IZR t + / X) by (field; lra).
  assert (E4 : ((IZR t + 1) * X - 1) / X = IZR t + 1 - / X) by (field; lra).
  rewrite E1 in H1. rewrite E2 in H2. rewrite E3 in H3.
  rewrite E4 in H4, Hx4.
  assert (Ht1 : 2 <= IZR t) by (apply IZR_le; lia).
  assert (HiX : 0 < / X) by now apply Rinv_0_lt_compat.
  replace (1 + (IZR L - 1)) with (IZR L) in H3, H4 by ring.
  unfold continuous_level.
  replace (t - 1 + 1)%Z with t by lia.
  split; [exact H1|]. split; [exact H2|]. split.
  - apply min_exp_above in H3; [lra|lia|lra].
  - apply min_exp_below in H4; [lra|lia|exact Hx4].
Qed.

Lemma check_thresholds_sound (ts : list Z) : forall (L : Z),
  check_thresholds C BK BX L ts = true -> (2 <= L)%Z ->
  Forall (fun t => 2 <= t)%Z ts ->
  forall (i : nat) (t : Z), ts !! i = Some t ->
    check_threshold C BK BX (L + Z.of_nat i) t = true.
Proof.
  induction ts as [|t0 ts IH]; intros L Hc HL Hts i t Hi; [discriminate|].
  simpl in Hc. apply andb_true_iff in Hc as [Hc Hrest].
  inversion Hts as [|? ? Ht0 Hts']; subst.
  destruct i as [|i]; simpl in Hi.
  - injection Hi as <-. now rewrite Z.add_0_r.
  - replace (L + Z.of_nat (S i))%Z with (L + 1 + Z.of_nat i)%Z by lia.
    apply IH; [exact Hrest|lia|exact Hts'|exact Hi].
Qed.

Lemma thresholds_ge_2 : Forall (fun t => 2 <= t)%Z thresholds.
Proof.
  apply Forall_forall. intros t Ht. unfold thresholds in Ht.
  repeat (apply elem_of_cons in Ht as [-> | Ht]; [lia|]).
  now apply elem_of_nil in Ht.
Qed.

Hypothesis thresholds_ok : check_thresholds C BK BX 2 thresholds = true.
Hypothesis ends_ok : check_ends C BK = true.

Lemma threshold_checked (L : Z) :
  (2 <= L <= 49)%Z ->
  (2 <= threshold L)%Z /\ check_threshold C BK BX L (threshold L) = true.
Proof.
  intros HL. unfold threshold.
  destruct (thresholds !! Z.to_nat (L - 2)) as [t|] eqn:Ht.
  - simpl. split.
    + pose proof thresholds_ge_2 as H. rewrite Forall_forall in H.
      apply H. eapply list_elem_of_lookup_2. exact Ht.
    + pose proof (check_thresholds_sound thresholds 2 thresholds_ok
                    ltac:(lia) thresholds_ge_2 _ _ Ht) as H.
      replace (2 + Z.of_nat (Z.to_nat (L - 2)))%Z with L in H by lia.
      exact H.
  - apply lookup_ge_None in Ht. simpl in Ht. lia.
Qed.

Lemma ends_sound :
  1 + / K < continuous_level 1
  /\ continuous_level 49999 < 50 - / K
  /\ 50 + / K < continuous_level 50001.
Proof.
  pose proof ends_ok as Hc. unfold check_ends in Hc.
  apply andb_true_iff in Hc as [Hc H3]. apply andb_true_iff in Hc as [H1 H2].
  pose proof K_pos as HK.
  change 2%bigZ with (BigZ.of_Z 2) in H1.
  change 1%bigZ with (BigZ.of_Z 1) in H1.
  change 50000%bigZ with (BigZ.of_Z 50000) in H2.
  change 50002%bigZ with (BigZ.of_Z 50002) in H3.
  apply (check_gt_level C C_ok 2 1 1 level_margin _ _ one_encloses BK_encloses)
    in H1 as [_ H1]; [|lia|lia|lia|unfold level_margin; lia].
  apply (check_lt_level C C_ok 50000 1 _ level_margin _ _ one_encloses
           BK_encloses) in H2; [|lia|unfold level_margin; lia
                                |unfold level_margin; lia].
  apply (check_gt_level C C_ok 50002 1 _ level_margin _ _ one_encloses
           BK_encloses) in H3 as [_ H3];
    [|lia|lia|unfold level_margin; lia|unfold level_margin; lia].
  fold K in H1, H2, H3. rewrite Rdiv_1_r in H1, H2, H3.
  rewrite minus_IZR, mult_IZR in H2. rewrite plus_IZR, mult_IZR in H3.
  fold K in H2, H3.
  assert (E1 : 1 + 1 / K = 1 + / K) by (field; lra).
  assert (E2 : 1 + (49 * K - 1) / K = 50 - / K) by (field; lra).
  assert (E3 : 1 + (49 * K + 1) / K = 50 + / K) by (field; lra).
  rewrite E1 in H1. rewrite E2 in H2. rewrite E3 in H3.
  unfold continuous_level.
  change (IZR (1 + 1)) with 2. change (IZR (49999 + 1)) with 50000.
  change (IZR (50001 + 1)) with 50002.
  auto.
Qed.

Lemma count_le_bounds (e : Z) (ts : list Z) : forall (L : Z),
  check_thresholds C BK BX L ts = true -> (2 <= L)%Z ->
  Forall (fun t => 2 <= t)%Z ts -> (1 <= e)%Z ->
  IZR (L - 1) + / K <= continuous_level e ->
  (0 <= count_le e ts <= Z.of_nat (length ts))%Z
  /\ IZR (L - 1 + count_le e ts) + / K <= continuous_level e
  /\ ((count_le e ts < Z.of_nat (length ts))%Z ->
      continuous_level e <= IZR (L + count_le e ts) - / K).
Proof.
  induction ts as [|t ts IH]; intros L Hc HL Hts He Hlow; simpl.
  - rewrite Z.add_0_r. repeat split; [lia|lia|exact Hlow|lia].
  - simpl in Hc. apply andb_true_iff in Hc as [Hc Hrest].
    inversion Hts as [|? ? Ht Hts']; subst.
    apply check_threshold_sound in Hc as (Hlt & Hgt & _); [|exact HL|exact Ht].
    destruct (t <=? e)%Z eqn:Hte.
    + apply Z.leb_le in Hte.
      assert (Hlow' : IZR (L + 1 - 1) + / K <= continuous_level e).
      { replace (L + 1 - 1)%Z with L by lia.
        pose proof (continuous_level_mono t e ltac:(lia)). lra. }
      destruct (IH (L + 1)%Z Hrest ltac:(lia) Hts' He Hlow')
        as (Hrange & Hlo & Hhi).
      repeat split; try lia.
      * replace (L - 1 + (1 + count_le e ts))%Z
          with (L + 1 - 1 + count_le e ts)%Z by lia. exact Hlo.
      * intros Hlen.
        replace (L + (1 + count_le e ts))%Z
          with (L + 1 + count_le e ts)%Z by lia.
        apply Hhi. lia.
    + apply Z.leb_gt in Hte. rewrite !Z.add_0_r.
      repeat split; try lia; [exact Hlow|].
      intros _.
      pose proof (continuous_level_mono e (t - 1) ltac:(lia)). lra.
Qed.

(** Below the cap the continuous level stays [1 / level_margin] inside the
    interval of its level. *)
Lemma level_inside_gen (e : Z) :
  (1 <= e < exp_cap)%Z ->
  IZR (level_table e) + / K <= continuous_level e
  <= IZR (level_table e) + 1 - / K.
Proof.
  intros He. unfold level_table.
  rewrite (proj2 (Z.leb_gt e 0)) by lia.
  rewrite (proj2 (Z.leb_gt exp_cap e)) by lia.
  destruct ends_sound as (H1 & H49 & _).
  assert (Hlow : IZR (2 - 1) + / K <= continuous_level e).
  { change (IZR (2 - 1)) with 1.
    pose proof (continuous_level_mono 1 e ltac:(lia)). lra. }
  destruct (count_le_bounds e thresholds 2 thresholds_ok ltac:(lia)
              thresholds_ge_2 ltac:(lia) Hlow) as (Hrange & Hlo & Hhi).
  change (Z.of_nat (length thresholds)) with 48%Z in *.
  set (j := count_le e thresholds) in *.
  replace (2 - 1 + j)%Z with (1 + j)%Z in Hlo by lia.
  split; [exact Hlo|].
  destruct (Z.eq_dec j 48%Z) as [Hj|Hne].
  - rewrite Hj. change (IZR (1 + 48)) with 49.
    pose proof (continuous_level_mono e 49999 ltac:(unfold exp_cap in He; lia)).
    lra.
  - specialize (Hhi ltac:(lia)). rewrite plus_IZR in Hhi. rewrite plus_IZR.
    lra.
Qed.

Lemma level_above_cap_gen (e : Z) :
  (exp_cap < e)%Z -> 50 + / K <= continuous_level e.
Proof.
  intros He. destruct ends_sound as (_ & _ & H).
  pose proof (continuous_level_mono 50001 e ltac:(unfold exp_cap in He; lia)).
  lra.
Qed.

Lemma min_exp_inside_gen (L : Z) :
  (2 <= L <= 49)%Z ->
  IZR (threshold L) - 1 + / X < continuous_min_exp L < IZR (threshold L) - / X.
Proof.
  intros HL. destruct (threshold_checked L HL) as [Ht Hc].
  apply check_threshold_sound in Hc as (_ & _ & H3 & H4); [|lia|exact Ht].
  split; assumption.
Qed.
End Checked.

(** ** [exp_to_level] and [level_to_min_exp] are the table *)

Section TableFacts.
Local Open Scope R_scope.

Lemma table_consts_ok : Big.make_consts = Some table_consts.
Proof. vm_compute. reflexivity. Qed.

Lemma level_margin_bounds_ok :
  Big.ln_bounds (BigZ.of_Z level_margin) = Some level_margin_bounds.
Proof. vm_compute. reflexivity. Qed.

Lemma exp_margin_bounds_ok :
  Big.ln_bounds (BigZ.of_Z exp_margin) = Some exp_margin_bounds.
Proof. vm_compute. reflexivity. Qed.

Lemma thresholds_checked :
  check_thresholds table_consts level_margin_bounds exp_margin_bounds 2
    thresholds = true.
Proof. vm_compute. reflexivity. Qed.

Lemma ends_checked : check_ends table_consts level_margin_bounds = true.
Proof. vm_compute. reflexivity. Qed.

(** Below the cap the continuous level stays one millionth inside the
    interval of its level. *)
Lemma level_inside (e : Z) :
  (1 <= e < exp_cap)%Z ->
  IZR (level_table e) + / IZR level_margin <= continuous_level e
  <= IZR (level_table e) + 1 - / IZR level_margin.
Proof.
  apply (level_inside_gen _ _ _ table_consts_ok level_margin_bounds_ok
           exp_margin_bounds_ok thresholds_checked ends_checked).
Qed.

Lemma level_above_cap (e : Z) :
  (exp_cap < e)%Z -> 50 + / IZR level_margin <= continuous_level e.
Proof.
  apply (level_above_cap_gen _ _ table_consts_ok level_margin_bounds_ok
           ends_checked).
Qed.

(** The continuous minimum EXP of level [L] lies strictly between
    [threshold L - 1] and [threshold L], one thousandth inside. *)
Lemma min_exp_inside (L : Z) :
  (2 <= L <= 49)%Z ->
  IZR (threshold L) - 1 + / IZR exp_margin < continuous_min_exp L
  < IZR (threshold L) - / IZR exp_margin.
Proof.
  apply (min_exp_inside_gen _ _ _ table_consts_ok level_margin_bounds_ok
           exp_margin_bounds_ok thresholds_checked).
Qed.

Lemma threshold_ge_2 (L : Z) : (2 <= L <= 49)%Z -> (2 <= threshold L)%Z.
Proof.
  intros HL. unfold threshold.
  destruct (thresholds !! Z.to_nat (L - 2)) as [t|] eqn:Ht.
  - simpl. pose proof thresholds_ge_2 as H. rewrite Forall_forall in H.
    apply H. eapply list_elem_of_lookup_2. exact Ht.
  - apply lookup_ge_None in Ht. simpl in Ht. lia.
Qed.

Lemma Rabs_lt_inv (a b : R) : Rabs a < b -> - b < a < b.
Proof. unfold Rabs. destruct (Rcase_abs a); lra. Qed.

Lemma margin_pos : 0 < / IZR level_margin /\ 0 < / IZR exp_margin.
Proof.
  split; apply Rinv_0_lt_compat, IZR_lt; reflexivity.
Qed.

(** Any value within one millionth of the continuous level truncates to
    the level of the table, at every EXP from 1 on other than the cap.  (At
    the cap the quotient of the two logarithms is 1 and the continuous
    level is 50 exactly.) *)
Lemma truncation_stable (e : Z) (x : R) :
  (1 <= e)%Z -> e <> exp_cap ->
  Rabs (x - continuous_level e) < / IZR level_margin ->
  Z.min 50 (int_of_float x) = level_table e.
Proof.
  intros He Hne Hx. destruct margin_pos as [Hm _].
  apply Rabs_lt_inv in Hx.
  destruct (Z_lt_ge_dec e exp_cap) as [Hlt|Hge].
  - pose proof (level_inside e ltac:(lia)) as Hin.
    assert (Hr : (1 <= level_table e <= 49)%Z).
    { unfold level_table.
      rewrite (proj2 (Z.leb_gt e 0)) by lia.
      rewrite (proj2 (Z.leb_gt exp_cap e)) by lia.
      assert (H : forall ts, (0 <= count_le e ts <= Z.of_nat (length ts))%Z).
      { induction ts as [|t ts IH]; simpl; [lia|].
        destruct (t <=? e)%Z; lia. }
      specialize (H thresholds).
      change (Z.of_nat (length thresholds)) with 48%Z in H. lia. }
    assert (H1 : 1 <= IZR (level_table e)) by (apply IZR_le; lia).
    rewrite (int_of_float_floor x (level_table e)); [lia|lra|lra].
  - pose proof (level_above_cap e ltac:(lia)) as Hin.
    unfold level_table.
    rewrite (proj2 (Z.leb_gt e 0)) by lia.
    rewrite (proj2 (Z.leb_le exp_cap e)) by lia.
    assert (50 <= int_of_float x)%Z; [|lia].
    unfold int_of_float. destruct (Rle_dec 0 x); [|lra].
    apply Zfloor_lub. lra.
Qed.

(** Any value within one thousandth of the continuous minimum EXP
    truncates to the EXP just below the threshold. *)
Lemma min_exp_truncation_stable (L : Z) (x : R) :
  (2 <= L <= 49)%Z ->
  Rabs (x - continuous_min_exp L) < / IZR exp_margin ->
  int_of_float x = (threshold L - 1)%Z.
Proof.
  intros HL Hx. destruct margin_pos as [_ Hm].
  apply Rabs_lt_inv in Hx.
  pose proof (min_exp_inside L HL) as Hin.
  pose proof (threshold_ge_2 L HL) as Ht.
  assert (Ht1 : 2 <= IZR (threshold L)) by (apply IZR_le; lia).
  apply int_of_float_floor; [lra|]. rewrite minus_IZR. lra.
Qed.

(** [exp_to_level] is the table wherever [np.log] accepts the argument. *)
Lemma exp_to_level_table (e : Z) :
  (e < uint64_max)%Z -> exp_to_level e = Ok (level_table e).
Proof.
  intros He. destruct (Z_le_gt_dec e 0) as [H0|H0].
  { rewrite exp_to_level_nonpositive by exact H0.
    unfold level_table. now rewrite (proj2 (Z.leb_le e 0)). }
  rewrite exp_to_level_continuous by lia. f_equal.
  destruct (Z.eq_dec e exp_cap) as [->|Hne].
  - rewrite continuous_level_cap.
    rewrite (int_of_float_floor 50 50); [reflexivity|lra|lra].
  - apply truncation_stable; [lia|exact Hne|].
    rewrite Rminus_diag, Rabs_R0. apply margin_pos.
Qed.

(** [level_to_min_exp] returns the EXP just below the threshold: the
    continuous minimum EXP lies strictly between [threshold L - 1] and
    [threshold L], and [int] truncates it. *)
Lemma level_to_min_exp_threshold (L : Z) :
  (2 <= L <= 49)%Z -> level_to_min_exp L = Ok (threshold L - 1)%Z.
Proof.
  intros HL. rewrite level_to_min_exp_continuous by exact HL. f_equal.
  apply min_exp_truncation_stable; [exact HL|].
  rewrite Rminus_diag, Rabs_R0. apply margin_pos.
Qed.
End TableFacts.

(** ** core/query.py: the forward and the inverse mapping *)

Section Query.
Local Open Scope Z_scope.

Lemma int_of_float_mono (x y : R) :
  (0 <= x)%R -> (x <= y)%R -> int_of_float x <= int_of_float y.
Proof.
  intros Hx Hxy. unfold int_of_float.
  destruct (Rle_dec 0 x); [|contradiction].
  destruct (Rle_dec 0 y); [|lra].
  now apply Zfloor_le.
Qed.

Lemma int_of_float_ge_1 (x : R) : (1 <= x)%R -> 1 <= int_of_float x.
Proof.
  intros Hx. unfold int_of_float. destruct (Rle_dec 0 x); [|lra].
  now apply Zfloor_lub.
Qed.

(** Below [2^64 - 1] the forward mapping is defined and monotone. *)
Lemma exp_to_level_monotone (e1 e2 : Z) :
  e1 <= e2 -> e2 < uint64_max ->
  exists l1 l2 : Z,
    exp_to_level e1 = Ok l1 /\ exp_to_level e2 = Ok l2 /\ 1 <= l1 <= l2.
Proof.
  intros H12 H2.
  destruct (Z_le_gt_dec e2 0) as [Hn|Hp].
  { exists 1, 1. rewrite !exp_to_level_nonpositive by lia. repeat split; lia. }
  pose proof (continuous_level_gt_1 e2) as Hc2.
  destruct (Z_le_gt_dec e1 0) as [Hn1|Hp1].
  - eexists 1, _. rewrite exp_to_level_nonpositive by lia.
    rewrite exp_to_level_continuous by lia.
    repeat split; [lia|].
    pose proof (int_of_float_ge_1 (continuous_level e2) ltac:(lra)). lia.
  - pose proof (continuous_level_gt_1 e1) as Hc1.
    eexists _, _. rewrite !exp_to_level_continuous by lia.
    repeat split.
    + pose proof (int_of_float_ge_1 (continuous_level e1) ltac:(lra)). lia.
    + pose proof (continuous_level_mono e1 e2 ltac:(lia)) as Hm.
      pose proof (int_of_float_mono (continuous_level e1)
                    (continuous_level e2) ltac:(lra) Hm). lia.
Qed.

(** From the cap up to [2^64 - 2] the forward mapping is 50. *)
Lemma exp_to_level_saturates (e : Z) :
  exp_cap <= e < uint64_max -> exp_to_level e = Ok 50.
Proof.
  intros He. rewrite exp_to_level_table by lia. unfold level_table.
  rewrite (proj2 (Z.leb_gt e 0)) by (unfold exp_cap in He; lia).
  now rewrite (proj2 (Z.leb_le exp_cap e)) by lia.
Qed.

(** C1 (failing input).  The pair [0 <= 2^64 - 1] has no second level:
    [exp_to_level 0] is 1, and at [2^64 - 1] the argument of [np.log]
    is [2^64], which raises [TypeError]; the two results cannot be
    ordered. *)
Theorem exp_to_level_unordered_at_uint64_max :
  0 <= 2 ^ 64 - 1
  /\ exp_to_level 0 = Ok 1
  /\ exp_to_level (2 ^ 64 - 1) = Raise TypeError.
Proof.
  split; [lia|]. split.
  - now apply exp_to_level_nonpositive.
  - apply exp_to_level_too_large. unfold uint64_max. lia.
Qed.

(** C3 (failing input).  [exp_to_level 50000] is 50, but the mapping does
    not stay at 50 for every larger integer: at [2^64 - 1] it raises
    [TypeError]. *)
Theorem exp_to_level_cap_then_raises :
  exp_to_level 50000 = Ok 50
  /\ 50000 <= uint64_max
  /\ exp_to_level uint64_max = Raise TypeError.
Proof.
  split; [|split].
  - apply exp_to_level_saturates. zrange.
  - zrange.
  - apply exp_to_level_too_large. lia.
Qed.

Lemma round_trip_table :
  forallb (fun L => level_table (threshold L - 1) =? L - 1) (seqZ 2 48) = true.
Proof. vm_compute. reflexivity. Qed.

Lemma threshold_below_cap (L : Z) :
  2 <= L <= 49 -> 2 <= threshold L < exp_cap.
Proof.
  intros HL. split; [apply threshold_ge_2; lia|].
  assert (H : forallb (fun L => threshold L <? exp_cap) (seqZ 2 48) = true)
    by (vm_compute; reflexivity).
  rewrite forallb_forall in H. apply Z.ltb_lt, H.
  apply list_elem_of_In, elem_of_seqZ. lia.
Qed.

(** The value of the round trip: the truncated inverse lies just below
    the point where level [L] starts. *)
Lemma round_trip_value (L : Z) :
  2 <= L <= 49 -> level_to_min_exp L ≫= exp_to_level = Ok (L - 1).
Proof.
  intros HL.
  rewrite level_to_min_exp_threshold by exact HL. simpl.
  pose proof (threshold_below_cap L HL) as Ht.
  rewrite exp_to_level_table by zrange.
  f_equal. pose proof round_trip_table as H.
  rewrite forallb_forall in H. apply Z.eqb_eq, H.
  apply list_elem_of_In, elem_of_seqZ. lia.
Qed.

(** C2.  For every level [L] in [2, 49] the round trip
    [exp_to_level (level_to_min_exp L)] returns a level, and this level
    deviates from [L] by at most 1. *)
Theorem round_trip_within_one (L : Z) :
  2 <= L <= 49 ->
  exists l : Z,
    level_to_min_exp L ≫= exp_to_level = Ok l /\ Z.abs (l - L) <= 1.
Proof.
  intros HL. exists (L - 1). split; [now apply round_trip_value|lia].
Qed.

Lemma round_trip_within_one_witness :
  2 <= 20 <= 49
  /\ exists l : Z,
       level_to_min_exp 20 ≫= exp_to_level = Ok l /\ Z.abs (l - 20) <= 1.
Proof. split; [lia|apply (round_trip_within_one 20); lia]. Defined.

(** C4.  [level_to_min_exp] is pinned at both ends: every level at or
    below 1 gives 0 and every level at or above 50 gives the cap 50000;
    in particular [level_to_min_exp 1 = 0] and
    [level_to_min_exp 50 = 50000]. *)
Theorem level_to_min_exp_pinned (level : Z) :
  level <= 1 \/ 50 <= level ->
  level_to_min_exp level = Ok (if bool_decide (level <= 1) then 0 else 50000).
Proof.
  intros [H | H]; unfold level_to_min_exp.
  - now rewrite bool_decide_eq_true_2.
  - rewrite bool_decide_eq_false_2 by lia.
    now rewrite bool_decide_eq_true_2.
Qed.

Lemma level_to_min_exp_pinned_witness :
  (1 <= 1 \/ 50 <= 1) /\ level_to_min_exp 1 = Ok 0
  /\ (50 <= 1 \/ 50 <= 50) /\ level_to_min_exp 50 = Ok 50000.
Proof.
  split; [left; lia|]. split; [apply (level_to_min_exp_pinned 1); left; lia|].
  split; [right; lia|]. apply (level_to_min_exp_pinned 50). right. lia.
Defined.

Lemma level_to_min_exp_total (level : Z) :
  exists n : Z, level_to_min_exp level = Ok n.
Proof.
  unfold level_to_min_exp. rewrite np_log_cap.
  repeat case_bool_decide; simpl; eauto.
Qed.

(** C5.  For [L] in [1, 49], [get_level_range L] is the pair of
    [level_to_min_exp L] and [level_to_min_exp (L + 1) - 1]; for
    [L = 50] its first component is [level_to_min_exp 50] and its
    second is the infinite sentinel. *)
Theorem get_level_range_spec (L : Z) :
  1 <= L <= 50 ->
  exists min_exp next_min : Z,
    level_to_min_exp L = Ok min_exp
    /\ level_to_min_exp (L + 1) = Ok next_min
    /\ get_level_range L
       = Ok (min_exp, if bool_decide (L = 50) then Infinity
                      else Finite (next_min - 1)).
Proof.
  intros HL.
  destruct (level_to_min_exp_total L) as [a Ha].
  destruct (level_to_min_exp_total (L + 1)) as [b Hb].
  exists a, b. repeat split; [exact Ha|exact Hb|].
  unfold get_level_range. rewrite Ha. simpl.
  case_bool_decide as H50; case_bool_decide as HL50; try lia.
  - rewrite Hb. reflexivity.
  - reflexivity.
Qed.

Lemma get_level_range_spec_witness :
  1 <= 50 <= 50
  /\ exists min_exp next_min : Z,
       level_to_min_exp 50 = Ok min_exp
       /\ level_to_min_exp (50 + 1) = Ok next_min
       /\ get_level_range 50
          = Ok (min_exp, if bool_decide (50 = 50) then Infinity
                         else Finite (next_min - 1)).
Proof. split; [lia|apply (get_level_range_spec 50); lia]. Defined.

Example level_to_min_exp_2 : level_to_min_exp 2 = Ok 32.
Proof. now rewrite level_to_min_exp_threshold by lia. Qed.

Example get_level_range_1 : get_level_range 1 = Ok (0, Finite 31).
Proof.
  unfold get_level_range.
  rewrite (level_to_min_exp_threshold (1 + 1)) by lia. reflexivity.
Qed.

Example get_level_range_50 : get_level_range 50 = Ok (50000, Infinity).
Proof. reflexivity. Qed.

(** C6 (as amended).  [exp_to_level 500] is 8: the continuous level
    [1 + 49 * (ln 501 / ln 50001) ^ 3.45] lies between 8 and 9. *)
Theorem exp_to_level_500 : exp_to_level 500 = Ok 8.
Proof. rewrite exp_to_level_table by zrange. reflexivity. Qed.

(** C6 (counterexample).  The level of EXP 500 is not 5. *)
Lemma exp_to_level_500_not_5 : exp_to_level 500 <> Ok 5.
Proof. rewrite exp_to_level_table by zrange. discriminate. Qed.
End Query.

(** ** core/distribution.py: reading a range label *)

Section Labels.
Local Open Scope Z_scope.
Local Arguments String.append !_ _ / : simpl nomatch.

Lemma app_assoc_string (a b c : string) : (a +:+ b) +:+ c = a +:+ b +:+ c.
Proof. induction a as [|x a IH]; simpl; [reflexivity|now rewrite IH]. Qed.

Lemma app_empty_r (a : string) : a +:+ "" = a.
Proof. induction a as [|x a IH]; simpl; [reflexivity|now rewrite IH]. Qed.

(** *** Characters *)

Lemma digit_not_space (c : ascii) : is_digit c = true → is_space c = false.
Proof.
  destruct c as [[] [] [] [] [] [] [] []]; try discriminate; reflexivity.
Qed.

Lemma digit_not_sign (c : ascii) :
  is_digit c = true →
  Ascii.eqb c "+" = false ∧ Ascii.eqb c "-" = false ∧ Ascii.eqb c "_" = false.
Proof.
  destruct c as [[] [] [] [] [] [] [] []]; try discriminate; auto.
Qed.



Lemma is_digit_value (c : ascii) :
  is_digit c = true ↔ ∃ d, digit_value c = Some d.
Proof.
  unfold is_digit. destruct (digit_value c); split; eauto; try discriminate.
  intros [d Hd]. discriminate.
Qed.

(** *** White space *)



Lemma lstrip_empty (s : string) : lstrip s = "" ↔ all_space s = true.
Proof.
  induction s as [|c s IH]; simpl; [tauto|].
  destruct (is_space c); simpl; [exact IH|]. split; discriminate.
Qed.

Lemma lstrip_nonspace (c : ascii) (s : string) :
  is_space c = false → lstrip (String c s) = String c s.
Proof. intros Hc. simpl. now rewrite Hc. Qed.

(** *** [sep in s] and [s.split(sep)] *)

Lemma contains_app (sep : ascii) (a b : string) :
  contains sep (a +:+ b) = contains sep a || contains sep b.
Proof.
  induction a as [|c a IH]; simpl; [reflexivity|].
  now rewrite IH, orb_assoc.
Qed.

Lemma split_nonempty (sep : ascii) (s : string) : split sep s ≠ [].
Proof.
  induction s as [|c s IH]; simpl; [discriminate|].
  destruct (Ascii.eqb c sep); [discriminate|].
  now destruct (split sep s).
Qed.

Lemma split_absent (sep : ascii) (s : string) :
  contains sep s = false → split sep s = [s].
Proof.
  induction s as [|c s IH]; simpl; [reflexivity|].
  intros [Hc Hs]%orb_false_iff. rewrite Hc, IH by exact Hs. reflexivity.
Qed.

Lemma split_at (sep : ascii) (a t : string) :
  contains sep a = false →
  split sep (a +:+ String sep t) = a :: split sep t.
Proof.
  induction a as [|c a IH]; simpl.
  - intros _. now rewrite Ascii.eqb_refl.
  - intros [Hc Ha]%orb_false_iff. rewrite Hc, IH by exact Ha. reflexivity.
Qed.



(** *** Digits *)



(** *** The number of digits *)



Lemma count_digits_length (s : string) :
  0 ≤ count_digits s ≤ Z.of_nat (String.length s).
Proof.
  induction s as [|c s IH]; simpl String.length; simpl count_digits; [lia|].
  destruct (digit_value c); lia.
Qed.

(** *** [int(s)] accepts the integer literals without ["-"], up to
    [max_str_digits] digits *)

Lemma py_int_scanned (s : string) (sign : Z) (c : ascii) (t : string)
    (d n : Z) (rest : string) :
  split_sign (lstrip s) = (sign, String c t) → digit_value c = Some d →
  scan_digits d t = Ok (n, rest) → all_space rest = true →
  py_int s = if bool_decide (count_digits (String c t) ≤ max_str_digits)
             then Ok (sign * n) else Raise ValueError.
Proof.
  intros Hsign Hd Hscan Hrest. apply lstrip_empty in Hrest.
  unfold py_int. rewrite Hsign, Hd, Hscan.
  change (match lstrip rest with
          | "" => if bool_decide (count_digits (String c t) ≤ max_str_digits)
                  then Ok (sign * n) else Raise ValueError
          | String _ _ => Raise ValueError
          end
          = if bool_decide (count_digits (String c t) ≤ max_str_digits)
            then Ok (sign * n) else Raise ValueError).
  now rewrite Hrest.
Qed.



End Labels.

Section ParseExpRange.
Local Open Scope Z_scope.
Local Arguments String.append !_ _ / : simpl nomatch.









(** *** Bare integers *)

Lemma scan_digits_uint_acc (d : Decimal.uint) :
  ∀ acc : positive,
    scan_digits (Z.pos acc) (DecimalString.NilEmpty.string_of_uint d)
    = Ok (Z.pos (Pos.of_uint_acc d acc), "").
Proof.
  induction d; intros acc; simpl; [reflexivity|..];
    match goal with
    | |- scan_digits ?x _ = Ok (Z.pos (Pos.of_uint_acc _ ?y), _) =>
        replace x with (Z.pos y) by lia; apply IHd
    end.
Qed.

Lemma scan_digits_uint (d : Decimal.uint) :
  scan_digits 0 (DecimalString.NilEmpty.string_of_uint d)
  = Ok (Z.of_N (N.of_uint d), "").
Proof.
  unfold N.of_uint.
  induction d; simpl; [reflexivity|exact IHd|..];
    apply scan_digits_uint_acc.
Qed.

Lemma uint_string_digits (d : Decimal.uint) :
  contains "-" (DecimalString.NilEmpty.string_of_uint d) = false
  ∧ match DecimalString.NilEmpty.string_of_uint d with
    | String c _ => is_digit c = true
    | EmptyString => True
    end.
Proof.
  induction d as [|d [IH _]|d [IH _]|d [IH _]|d [IH _]|d [IH _]|d [IH _]
                  |d [IH _]|d [IH _]|d [IH _]|d [IH _]]; simpl; auto.
Qed.

Lemma py_int_uint (s : string) (d : Decimal.uint) :
  DecimalString.NilEmpty.uint_of_string s = Some d → s ≠ "" →
  Z.of_nat (String.length s) ≤ max_str_digits →
  py_int s = Ok (Z.of_N (N.of_uint d)) ∧ contains "-" s = false.
Proof.
  intros Hd Hne Hlen. apply DecimalString.NilEmpty.sus in Hd as <-.
  pose proof (scan_digits_uint d) as Hscan.
  destruct (uint_string_digits d) as [Hdash Hhead].
  split; [|exact Hdash].
  destruct (DecimalString.NilEmpty.string_of_uint d) as [|c t] eqn:Hs;
    [contradiction|].
  pose proof (count_digits_length (String c t)) as Hn.
  assert (Hsign : split_sign (lstrip (String c t)) = (1, String c t)).
  { rewrite lstrip_nonspace by now apply digit_not_space.
    unfold split_sign. now destruct (digit_not_sign c Hhead) as (-> & -> & _). }
  simpl in Hscan.
  destruct (digit_value c) as [v|] eqn:Hv.
  - change (10 * 0 + v) with v in Hscan.
    rewrite (py_int_scanned _ _ _ _ _ _ _ Hsign Hv Hscan eq_refl).
    rewrite bool_decide_eq_true_2 by lia. now rewrite Z.mul_1_l.
  - apply is_digit_value in Hhead as [v' Hv']. congruence.
Qed.

Lemma parse_exp_range_digits (s : string) (d : Decimal.uint) :
  DecimalString.NilEmpty.uint_of_string s = Some d → s ≠ "" →
  Z.of_nat (String.length s) ≤ max_str_digits →
  parse_exp_range s = (Z.of_N (N.of_uint d), Z.of_N (N.of_uint d)).
Proof.
  intros Hd Hne Hlen. destruct (py_int_uint s d Hd Hne Hlen) as [Hint Hdash].
  unfold parse_exp_range, parse_exp_range_body.
  rewrite Hdash, Hint. reflexivity.
Qed.







(** The decimal notation of a natural number is such a label. *)
Corollary parse_exp_range_decimal (n : N) :
  decimal_digits n ≤ max_str_digits →
  parse_exp_range (DecimalString.NilZero.string_of_uint (N.to_uint n))
  = (Z.of_N n, Z.of_N n).
Proof.
  unfold decimal_digits.
  pose proof (DecimalN.Unsigned.of_to n) as Hn.
  set (d := N.to_uint n) in *.
  assert (Hd : d ≠ Decimal.Nil).
  { intros Hnil. rewrite Hnil in Hn. subst d.
    destruct n; discriminate. }
  assert (Hs : DecimalString.NilZero.string_of_uint d
               = DecimalString.NilEmpty.string_of_uint d)
    by (destruct d; [contradiction|reflexivity..]).
  clearbody d. subst n. rewrite Hs. intros Hlen.
  apply parse_exp_range_digits; [apply DecimalString.NilEmpty.usu| |exact Hlen].
  now destruct d.
Qed.
End ParseExpRange.

(** ** core/distribution.py: the aggregation *)

Section Aggregation.
Local Open Scope Z_scope.

Lemma Zsum_perm (l1 l2 : list Z) : l1 ≡ₚ l2 → Zsum l1 = Zsum l2.
Proof.
  induction 1 as [|x l1 l2 _ IH|x y l|l1 l2 l3 _ IH1 _ IH2]; simpl; lia.
Qed.

Lemma map_total_insert_fresh (m : gmap Z Z) (k v : Z) :
  m !! k = None → map_total (<[k:=v]> m) = v + map_total m.
Proof.
  intros Hk. unfold map_total.
  rewrite (Zsum_perm _ (((k, v) :: map_to_list m).*2)); [reflexivity|].
  apply fmap_Permutation. now apply map_to_list_insert.
Qed.

Lemma map_total_insert (m : gmap Z Z) (k v : Z) :
  map_total (<[k:=v]> m) = v + map_total m - default 0 (m !! k).
Proof.
  destruct (m !! k) as [c|] eqn:Hk; simpl.
  - rewrite <- (insert_delete_eq m k v).
    rewrite <- (insert_delete_id m k c Hk) at 2.
    rewrite !map_total_insert_fresh by apply lookup_delete_eq. lia.
  - rewrite map_total_insert_fresh by exact Hk. lia.
Qed.

Lemma accumulate_total (d d' : gmap Z Z) (r : row) :
  accumulate d r = Ok d' → map_total d' = map_total d + count r.
Proof.
  unfold accumulate. destruct (row_level r) as [l|]; [simpl|discriminate].
  destruct (d !! l) as [c|] eqn:Hl; intros [= <-];
    rewrite map_total_insert, Hl; simpl; lia.
Qed.

Lemma iterrows_total (df : list row) :
  ∀ d d' : gmap Z Z,
    iterrows d df = Ok d' → map_total d' = map_total d + Zsum (count <$> df).
Proof.
  induction df as [|r df IH]; intros d d'; cbn [iterrows].
  - intros [= <-]. change (Zsum (count <$> [])) with 0. lia.
  - destruct (accumulate d r) as [d1|] eqn:Hr; [|discriminate].
    change (Ok d1 ≫= _) with (iterrows d1 df).
    intros Hd'. apply IH in Hd'. apply accumulate_total in Hr.
    change (Zsum (count <$> r :: df)) with (count r + Zsum (count <$> df)).
    lia.
Qed.

Lemma sorted_perm (items : list (Z * Z)) : sorted items ≡ₚ items.
Proof. apply merge_sort_Permutation. Qed.

#[local] Instance tuple_le_total : Total tuple_le.
Proof. intros [a b] [c d]. unfold tuple_le. simpl. lia. Qed.

#[local] Instance tuple_le_trans : Transitive tuple_le.
Proof. intros [a b] [c d] [e f]. unfold tuple_le. simpl. lia. Qed.

Lemma sorted_keys_ascending (items : list (Z * Z)) :
  NoDup items.*1 → StronglySorted Z.lt (sorted items).*1.
Proof.
  intros Hnd.
  assert (Hnd' : NoDup (sorted items).*1).
  { assert (Hp : (sorted items).*1 ≡ₚ items.*1)
      by apply fmap_Permutation, sorted_perm.
    now rewrite Hp. }
  pose proof (StronglySorted_merge_sort tuple_le items) as Hs.
  fold (sorted items) in Hs.
  induction Hs as [|x l Hs IH Hx]; simpl; [constructor|].
  simpl in Hnd'. apply NoDup_cons in Hnd' as [Hx' Hl'].
  constructor; [now apply IH|].
  apply Forall_fmap, Forall_forall. intros y Hy. simpl.
  rewrite Forall_forall in Hx. specialize (Hx y Hy).
  assert (x.1 ≠ y.1).
  { intros Heq. apply Hx'. rewrite Heq.
    apply list_elem_of_fmap. now exists y. }
  unfold tuple_le in Hx. lia.
Qed.

Lemma frame_level (items : list (Z * Z)) : level <$> frame items = items.*1.
Proof.
  unfold frame. rewrite <- list_fmap_compose.
  apply list_fmap_ext. now intros _ [l c] _.
Qed.

Lemma frame_user_count (items : list (Z * Z)) :
  user_count <$> frame items = items.*2.
Proof.
  unfold frame. rewrite <- list_fmap_compose.
  apply list_fmap_ext. now intros _ [l c] _.
Qed.

Lemma calculate_level_distribution_inv (df : list row) (rows : list level_row) :
  calculate_level_distribution df = Ok rows →
  ∃ d, iterrows ∅ df = Ok d ∧ rows = frame (sorted (map_to_list d)) ∧ rows ≠ [].
Proof.
  unfold calculate_level_distribution.
  destruct (iterrows ∅ df) as [d|]; [simpl|discriminate].
  destruct (frame (sorted (map_to_list d))) eqn:Hf; [discriminate|].
  intros [= <-]. exists d. auto.
Qed.

(** Whenever a frame is returned, the total is conserved, there is one
    row per level, and the levels ascend strictly. *)
Lemma calculate_level_distribution_ok (df : list row) (rows : list level_row) :
  calculate_level_distribution df = Ok rows →
  Zsum (user_count <$> rows) = Zsum (count <$> df)
  ∧ StronglySorted Z.lt (level <$> rows).
Proof.
  intros (d & Hd & -> & _)%calculate_level_distribution_inv. split.
  - rewrite frame_user_count.
    rewrite (Zsum_perm _ ((map_to_list d).*2))
      by (apply fmap_Permutation, sorted_perm).
    apply iterrows_total in Hd. unfold map_total in Hd.
    rewrite map_to_list_empty in Hd. simpl in Hd. lia.
  - rewrite frame_level. apply sorted_keys_ascending.
    apply NoDup_fst_map_to_list.
Qed.

Lemma accumulate_nonempty (d d' : gmap Z Z) (r : row) :
  accumulate d r = Ok d' → d' ≠ ∅.
Proof.
  unfold accumulate. destruct (row_level r) as [l|]; [simpl|discriminate].
  destruct (d !! l); intros [= <-]; apply insert_non_empty.
Qed.

Lemma iterrows_nonempty (df : list row) :
  ∀ d d' : gmap Z Z, iterrows d df = Ok d' → d ≠ ∅ → d' ≠ ∅.
Proof.
  induction df as [|r df IH]; simpl; intros d d'.
  - now intros [= <-].
  - destruct (accumulate d r) as [d1|] eqn:Hr; [simpl|discriminate].
    intros Hd' _. eapply IH; [exact Hd'|]. eapply accumulate_nonempty, Hr.
Qed.

Lemma iterrows_defined (df : list row) :
  Forall (λ r, ∃ l, row_level r = Ok l) df →
  ∀ d : gmap Z Z, ∃ d', iterrows d df = Ok d'.
Proof.
  induction 1 as [|r df [l Hl] _ IH]; intros d; simpl; [eauto|].
  unfold accumulate. rewrite Hl. simpl. apply IH.
Qed.

(** A frame is returned for every non-empty table whose midpoints
    [exp_to_level] accepts. *)
Lemma calculate_level_distribution_defined (df : list row) :
  df ≠ [] → Forall (λ r, ∃ l, row_level r = Ok l) df →
  ∃ rows, calculate_level_distribution df = Ok rows.
Proof.
  intros Hne Hdf. destruct (iterrows_defined df Hdf ∅) as [d Hd].
  unfold calculate_level_distribution. rewrite Hd. simpl.
  assert (Hd' : d ≠ ∅).
  { destruct df as [|r df]; [contradiction|]. simpl in Hd.
    destruct (accumulate ∅ r) as [d1|] eqn:Hr; [simpl in Hd|discriminate].
    eapply iterrows_nonempty; [exact Hd|]. eapply accumulate_nonempty, Hr. }
  destruct (map_to_list d) as [|x l] eqn:Hl.
  { now apply map_to_list_empty_iff in Hl. }
  destruct (sorted (x :: l)) as [|[k v] l'] eqn:Hs.
  { pose proof (sorted_perm (x :: l)) as Hp. rewrite Hs in Hp.
    now apply Permutation_nil_cons in Hp. }
  simpl. eauto.
Qed.

Lemma row_level_range (s : string) (a b c : Z) :
  parse_exp_range s = (a, b) →
  row_level (Row s c) = exp_to_level ((a + b) `div` 2).
Proof. intros H. unfold row_level. simpl. now rewrite H. Qed.

(** The scenario of the specification: the rows ("0-9", 100) and
    ("10-19", 50) have the midpoints 4 and 14, both of level 1. *)
Example calculate_level_distribution_scenario :
  calculate_level_distribution [Row "0-9" 100; Row "10-19" 50]
  = Ok [LevelRow 1 150].
Proof.
  unfold calculate_level_distribution, iterrows, accumulate.
  rewrite (row_level_range "0-9" 0 9 100 eq_refl).
  rewrite (row_level_range "10-19" 10 19 50 eq_refl).
  change ((0 + 9) `div` 2) with 4. change ((10 + 19) `div` 2) with 14.
  rewrite !exp_to_level_table by zrange.
  vm_compute. reflexivity.
Qed.

(** C7 (failing input).  For the empty table no frame is returned: the
    dictionary stays empty, the frame built from it has no
    ["user_count"] column, and taking its total raises [KeyError]. *)
Theorem calculate_level_distribution_empty_table :
  calculate_level_distribution [] = Raise KeyError.
Proof. reflexivity. Qed.

(** C10 (failing inputs).  No frame, hence no ordered rows, comes back
    for the empty table, nor for a table with a label whose midpoint is
    [2^64 - 1]: the first raises [KeyError], the second [TypeError]. *)
Theorem calculate_level_distribution_no_frame :
  calculate_level_distribution [] = Raise KeyError
  ∧ calculate_level_distribution
      [Row "0-9" 100; Row "18446744073709551615" 50]
    = Raise TypeError.
Proof.
  split; [reflexivity|].
  unfold calculate_level_distribution, iterrows, accumulate.
  rewrite (row_level_range "0-9" 0 9 100 eq_refl).
  change ((0 + 9) `div` 2) with 4.
  rewrite (exp_to_level_table 4) by zrange.
  pose proof (row_level_range "18446744073709551615" _ _ 50 eq_refl) as H.
  change ((_ + _) `div` 2) with 18446744073709551615 in H.
  rewrite H, exp_to_level_too_large by (unfold uint64_max; lia).
  reflexivity.
Qed.
End Aggregation.


(** ** core/query.py: the two mappings against each other *)

Section LevelTable.
Local Open Scope Z_scope.

Lemma count_le_range (e : Z) (ts : list Z) :
  0 ≤ count_le e ts ≤ Z.of_nat (length ts).
Proof.
  induction ts as [|t ts IH]; simpl; [lia|].
  destruct (t <=? e); lia.
Qed.

(** In a sorted list the leading elements that [e] has reached are all
    the elements that it has reached. *)
Lemma count_le_reaches (e : Z) (ts : list Z) :
  StronglySorted Z.le ts →
  ∀ (k : nat) (t : Z), ts !! k = Some t → Z.of_nat k < count_le e ts ↔ t ≤ e.
Proof.
  induction 1 as [|t0 ts Hs IH Hall]; intros k t Hk; [done|].
  pose proof (count_le_range e ts) as Hr. simpl.
  destruct k as [|k]; simpl in Hk.
  - simplify_eq. destruct (Z.leb_spec t e); lia.
  - specialize (IH k t Hk).
    assert (t0 ≤ t).
    { rewrite Forall_forall in Hall. apply Hall.
      eapply list_elem_of_lookup_2, Hk. }
    destruct (Z.leb_spec t0 e); lia.
Qed.

Lemma thresholds_sorted : StronglySorted Z.le thresholds.
Proof.
  assert (H : bool_decide (StronglySorted Z.le thresholds) = true)
    by (vm_compute; reflexivity).
  now apply bool_decide_eq_true_1 in H.
Qed.

Lemma threshold_lookup (L : Z) :
  2 ≤ L ≤ 49 → thresholds !! Z.to_nat (L - 2) = Some (threshold L).
Proof.
  intros HL. unfold threshold.
  destruct (thresholds !! Z.to_nat (L - 2)) as [t|] eqn:Ht; [reflexivity|].
  apply lookup_ge_None in Ht. simpl in Ht. lia.
Qed.

Lemma level_table_range (e : Z) : 1 ≤ level_table e ≤ 50.
Proof.
  unfold level_table. pose proof (count_le_range e thresholds) as H.
  change (Z.of_nat (length thresholds)) with 48 in H.
  destruct (e <=? 0); [lia|]. destruct (exp_cap <=? e); lia.
Qed.

(** An EXP is of level [L] or more exactly from the threshold of [L]
    on. *)
Lemma level_table_ge (e L : Z) :
  2 ≤ L ≤ 49 → L ≤ level_table e ↔ threshold L ≤ e.
Proof.
  intros HL. pose proof (threshold_below_cap L HL) as Ht.
  unfold level_table.
  destruct (Z.leb_spec e 0); [lia|].
  destruct (Z.leb_spec exp_cap e); [lia|].
  rewrite <- (count_le_reaches e thresholds thresholds_sorted
                (Z.to_nat (L - 2)) (threshold L) (threshold_lookup L HL)).
  lia.
Qed.

Lemma level_table_50 (e : Z) : level_table e = 50 ↔ exp_cap ≤ e.
Proof.
  unfold level_table. pose proof (count_le_range e thresholds) as H.
  change (Z.of_nat (length thresholds)) with 48 in H.
  unfold exp_cap.
  destruct (Z.leb_spec e 0); [lia|].
  destruct (Z.leb_spec 50000 e); lia.
Qed.

Lemma level_table_threshold (L : Z) :
  2 ≤ L ≤ 49 → level_table (threshold L) = L.
Proof.
  intros HL.
  assert (H : forallb (λ L, level_table (threshold L) =? L) (seqZ 2 48) = true)
    by (vm_compute; reflexivity).
  rewrite forallb_forall in H. apply Z.eqb_eq, H.
  apply list_elem_of_In, elem_of_seqZ. lia.
Qed.

Lemma level_table_below_threshold (L : Z) :
  2 ≤ L ≤ 49 → level_table (threshold L - 1) = L - 1.
Proof.
  intros HL. pose proof round_trip_table as H.
  rewrite forallb_forall in H. apply Z.eqb_eq, H.
  apply list_elem_of_In, elem_of_seqZ. lia.
Qed.

Lemma level_to_min_exp_table (L : Z) :
  level_to_min_exp L = Ok (min_exp_table L).
Proof.
  unfold min_exp_table.
  destruct (Z.leb_spec L 1).
  { unfold level_to_min_exp. now rewrite bool_decide_eq_true_2. }
  destruct (Z.leb_spec 50 L).
  { unfold level_to_min_exp. rewrite bool_decide_eq_false_2 by lia.
    now rewrite bool_decide_eq_true_2. }
  apply level_to_min_exp_threshold. lia.
Qed.

Lemma min_exp_table_range (L : Z) : 0 ≤ min_exp_table L ≤ 50000.
Proof.
  unfold min_exp_table.
  destruct (Z.leb_spec L 1); [lia|]. destruct (Z.leb_spec 50 L); [lia|].
  pose proof (threshold_below_cap L ltac:(lia)). unfold exp_cap in *. lia.
Qed.

Lemma min_exp_table_step (L : Z) :
  1 ≤ L < 50 → min_exp_table L < min_exp_table (L + 1).
Proof.
  intros HL.
  assert (H : forallb (λ L, min_exp_table L <? min_exp_table (L + 1))
                (seqZ 1 49) = true)
    by (vm_compute; reflexivity).
  rewrite forallb_forall in H. apply Z.ltb_lt, H.
  apply list_elem_of_In, elem_of_seqZ. lia.
Qed.

Lemma min_exp_table_strict (L1 L2 : Z) :
  1 ≤ L1 → L1 < L2 → L2 ≤ 50 → min_exp_table L1 < min_exp_table L2.
Proof.
  intros H1 H12 H2.
  replace L2 with (L1 + 1 + Z.of_nat (Z.to_nat (L2 - L1 - 1))) in * by lia.
  generalize dependent (Z.to_nat (L2 - L1 - 1)). intros n.
  induction n as [|n IH]; intros _ H2.
  - rewrite Z.add_0_r. apply min_exp_table_step. lia.
  - etrans; [apply IH; lia|].
    replace (L1 + 1 + Z.of_nat (S n)) with (L1 + 1 + Z.of_nat n + 1) by lia.
    apply min_exp_table_step. lia.
Qed.

Lemma min_exp_table_mono (L1 L2 : Z) :
  L1 ≤ L2 → min_exp_table L1 ≤ min_exp_table L2.
Proof.
  intros H12.
  pose proof (min_exp_table_range L1). pose proof (min_exp_table_range L2).
  destruct (Z_le_gt_dec L1 1).
  { unfold min_exp_table at 1. rewrite (proj2 (Z.leb_le L1 1)) by lia. lia. }
  destruct (Z_le_gt_dec 50 L2).
  { unfold min_exp_table at 2. rewrite (proj2 (Z.leb_gt L2 1)) by lia.
    rewrite (proj2 (Z.leb_le 50 L2)) by lia. lia. }
  destruct (Z.eq_dec L1 L2) as [->|]; [lia|].
  apply Z.lt_le_incl, min_exp_table_strict; lia.
Qed.

(** The inverse mapping stops one EXP short: an EXP is of level [L] or
    more exactly when it exceeds [min_exp_table L]. *)
Lemma level_table_reached (e L : Z) :
  2 ≤ L ≤ 49 → L ≤ level_table e ↔ min_exp_table L < e.
Proof.
  intros HL. rewrite level_table_ge by exact HL. unfold min_exp_table.
  rewrite (proj2 (Z.leb_gt L 1)) by lia.
  rewrite (proj2 (Z.leb_gt 50 L)) by lia. lia.
Qed.

Lemma exp_to_level_defined (e l : Z) :
  exp_to_level e = Ok l → e < uint64_max ∧ l = level_table e.
Proof.
  intros He. destruct (Z_lt_ge_dec e uint64_max) as [Hlt|Hge].
  - rewrite exp_to_level_table in He by exact Hlt. now simplify_eq.
  - rewrite exp_to_level_too_large in He by lia. discriminate.
Qed.

(** X1.  Wherever it returns, that is below [2^64 - 1], [exp_to_level]
    returns a level from 1 to 50. *)
Theorem exp_to_level_in_1_50 (e : Z) :
  e < uint64_max → ∃ l : Z, exp_to_level e = Ok l ∧ 1 ≤ l ≤ 50.
Proof.
  intros He. exists (level_table e).
  split; [now apply exp_to_level_table|apply level_table_range].
Qed.

Lemma exp_to_level_in_1_50_witness :
  ∃ l : Z, exp_to_level 1000 = Ok l ∧ 1 ≤ l ≤ 50.
Proof. apply (exp_to_level_in_1_50 1000). reflexivity. Defined.

(** X2.  [exp_to_level] raises exactly from [2^64 - 1] on, and what it
    raises is [TypeError]. *)
Theorem exp_to_level_raises_iff (e : Z) (x : exn) :
  exp_to_level e = Raise x ↔ x = TypeError ∧ uint64_max ≤ e.
Proof.
  split.
  - intros He. destruct (Z_lt_ge_dec e uint64_max) as [Hlt|Hge].
    + rewrite exp_to_level_table in He by exact Hlt. discriminate.
    + rewrite exp_to_level_too_large in He by lia. split; [congruence|lia].
  - intros [-> He]. now apply exp_to_level_too_large.
Qed.

(** X3.  Below [2^64 - 1] the forward mapping is non-decreasing. *)
Theorem exp_to_level_nondecreasing (e1 e2 : Z) :
  e1 ≤ e2 → e2 < uint64_max →
  ∃ l1 l2 : Z, exp_to_level e1 = Ok l1 ∧ exp_to_level e2 = Ok l2 ∧ l1 ≤ l2.
Proof.
  intros H12 H2.
  destruct (exp_to_level_monotone e1 e2 H12 H2) as (l1 & l2 & ? & ? & ?).
  exists l1, l2. repeat split; [assumption..|lia].
Qed.

Lemma exp_to_level_nondecreasing_witness :
  ∃ l1 l2 : Z,
    exp_to_level (-7) = Ok l1 ∧ exp_to_level 49999 = Ok l2 ∧ l1 ≤ l2.
Proof.
  apply (exp_to_level_nondecreasing (-7) 49999); [discriminate|reflexivity].
Defined.

(** X4.  Level 50 is the level of the EXP from the cap 50000 up to
    [2^64 - 2], and of no other. *)
Theorem exp_to_level_50_iff (e : Z) :
  exp_to_level e = Ok 50 ↔ exp_cap ≤ e < uint64_max.
Proof.
  split.
  - intros [He Hl]%exp_to_level_defined.
    split; [|exact He]. now apply level_table_50.
  - apply exp_to_level_saturates.
Qed.

(** X5.  Level 1 is the level of every EXP up to 32, the negative ones
    included, and of no other. *)
Theorem exp_to_level_1_iff (e : Z) : exp_to_level e = Ok 1 ↔ e ≤ 32.
Proof.
  pose proof (level_table_ge e 2 ltac:(lia)) as H2.
  change (threshold 2) with 33 in H2.
  pose proof (level_table_range e) as Hr.
  split.
  - intros [He Hl]%exp_to_level_defined. lia.
  - intros He. rewrite exp_to_level_table by zrange. f_equal. lia.
Qed.

(** X6.  For a level [L] from 2 to 49, an EXP is of level [L] or more
    exactly when it is greater than [level_to_min_exp L]: the inverse
    mapping gives the last EXP below the level, not the first EXP of
    it. *)
Theorem level_reached_iff (L e : Z) :
  2 ≤ L ≤ 49 → e < uint64_max →
  ∃ m l : Z,
    level_to_min_exp L = Ok m ∧ exp_to_level e = Ok l ∧ (L ≤ l ↔ m < e).
Proof.
  intros HL He. exists (min_exp_table L), (level_table e).
  split; [apply level_to_min_exp_table|].
  split; [now apply exp_to_level_table|].
  now apply level_table_reached.
Qed.

Lemma level_reached_iff_witness :
  ∃ m l : Z,
    level_to_min_exp 10 = Ok m ∧ exp_to_level 750 = Ok l ∧ (10 ≤ l ↔ m < 750).
Proof. apply (level_reached_iff 10 750); [lia|reflexivity]. Defined.

(** X7.  [level_to_min_exp] is non-decreasing over all the integers, with
    values from 0 to 50000, and increases strictly from level 1 to level
    50. *)
Theorem level_to_min_exp_increasing (L1 L2 : Z) :
  L1 ≤ L2 →
  ∃ m1 m2 : Z,
    level_to_min_exp L1 = Ok m1 ∧ level_to_min_exp L2 = Ok m2
    ∧ 0 ≤ m1 ≤ m2 ∧ m2 ≤ 50000
    ∧ (1 ≤ L1 → L1 < L2 → L2 ≤ 50 → m1 < m2).
Proof.
  intros H12. exists (min_exp_table L1), (min_exp_table L2).
  split; [apply level_to_min_exp_table|].
  split; [apply level_to_min_exp_table|].
  pose proof (min_exp_table_range L1). pose proof (min_exp_table_range L2).
  pose proof (min_exp_table_mono L1 L2 H12).
  repeat split; [lia..|]. apply min_exp_table_strict.
Qed.

Lemma level_to_min_exp_increasing_witness :
  ∃ m1 m2 : Z,
    level_to_min_exp 7 = Ok m1 ∧ level_to_min_exp 8 = Ok m2
    ∧ 0 ≤ m1 ≤ m2 ∧ m2 ≤ 50000
    ∧ (1 ≤ 7 → 7 < 8 → 8 ≤ 50 → m1 < m2).
Proof. apply (level_to_min_exp_increasing 7 8). discriminate. Defined.

Lemma get_level_range_table (L : Z) :
  get_level_range L
  = Ok (min_exp_table L,
        if bool_decide (L < 50) then Finite (min_exp_table (L + 1) - 1)
        else Infinity).
Proof.
  unfold get_level_range. rewrite (level_to_min_exp_table L).
  rewrite (level_to_min_exp_table (L + 1)).
  now case_bool_decide.
Qed.

(** X8.  For a level [L] from 1 to 49 the range of [get_level_range] is
    not empty, and the range of the next level starts right after it. *)
Theorem get_level_range_adjacent (L : Z) :
  1 ≤ L ≤ 49 →
  ∃ (lo hi : Z) (b : bound),
    get_level_range L = Ok (lo, Finite hi) ∧ 0 ≤ lo ≤ hi
    ∧ get_level_range (L + 1) = Ok (hi + 1, b).
Proof.
  intros HL. rewrite !get_level_range_table.
  rewrite bool_decide_eq_true_2 by lia.
  eexists _, _, _. split; [reflexivity|].
  pose proof (min_exp_table_range L).
  pose proof (min_exp_table_step L ltac:(lia)).
  split; [lia|]. do 2 f_equal. lia.
Qed.

Lemma get_level_range_adjacent_witness :
  ∃ (lo hi : Z) (b : bound),
    get_level_range 49 = Ok (lo, Finite hi) ∧ 0 ≤ lo ≤ hi
    ∧ get_level_range (49 + 1) = Ok (hi + 1, b).
Proof. apply (get_level_range_adjacent 49). lia. Defined.

(** X9.  Outside the levels 1 to 50 [get_level_range] does not fail: for
    a level below 1 it returns the empty range from 0 to -1, for a level
    above 50 the range of level 50. *)
Theorem get_level_range_outside (L : Z) :
  (L ≤ 0 → get_level_range L = Ok (0, Finite (-1)))
  ∧ (50 ≤ L → get_level_range L = Ok (50000, Infinity)).
Proof.
  rewrite get_level_range_table. unfold min_exp_table. split; intros HL.
  - rewrite bool_decide_eq_true_2 by lia.
    rewrite (proj2 (Z.leb_le L 1)) by lia.
    now rewrite (proj2 (Z.leb_le (L + 1) 1)) by lia.
  - rewrite bool_decide_eq_false_2 by lia.
    rewrite (proj2 (Z.leb_gt L 1)) by lia.
    now rewrite (proj2 (Z.leb_le 50 L)) by lia.
Qed.

Lemma get_level_range_outside_witness :
  get_level_range (-3) = Ok (0, Finite (-1))
  ∧ get_level_range 51 = Ok (50000, Infinity).
Proof.
  split.
  - apply (get_level_range_outside (-3)). discriminate.
  - apply (get_level_range_outside 51). discriminate.
Defined.

(** X10.  The range reported for the level of an EXP [e >= 0] starts at
    or below [e], and ends at [e - 1] or above: [e] lies in the range or
    is the EXP right after it. *)
Theorem level_range_of_exp (e : Z) :
  0 ≤ e → e < uint64_max →
  ∃ (l lo : Z) (hi : bound),
    exp_to_level e = Ok l ∧ get_level_range l = Ok (lo, hi) ∧ lo ≤ e
    ∧ match hi with Finite h => e ≤ h + 1 | Infinity => l = 50 end.
Proof.
  intros H0 He. eexists (level_table e), _, _.
  split; [now apply exp_to_level_table|].
  split; [apply get_level_range_table|].
  pose proof (level_table_range e) as Hr.
  split.
  - destruct (Z_le_gt_dec (level_table e) 1) as [H1|H1].
    { unfold min_exp_table. now rewrite (proj2 (Z.leb_le _ 1)) by lia. }
    destruct (Z.eq_dec (level_table e) 50) as [H50|H50].
    { rewrite H50. now apply level_table_50. }
    pose proof (proj1 (level_table_reached e (level_table e) ltac:(lia))).
    lia.
  - case_bool_decide; [|lia].
    destruct (Z.eq_dec (level_table e) 49) as [H49|H49].
    + rewrite H49. change (min_exp_table (49 + 1)) with 50000.
      pose proof (proj2 (level_table_50 e)). unfold exp_cap in *. lia.
    + pose proof (proj2 (level_table_reached e (level_table e + 1)
                           ltac:(lia))).
      lia.
Qed.

Lemma level_range_of_exp_witness :
  ∃ (l lo : Z) (hi : bound),
    exp_to_level 32 = Ok l ∧ get_level_range l = Ok (lo, hi) ∧ lo ≤ 32
    ∧ match hi with Finite h => 32 ≤ h + 1 | Infinity => l = 50 end.
Proof. apply (level_range_of_exp 32); [discriminate|reflexivity]. Defined.

(** X11.  Below the cap, the EXP still missing for the next level, which
    the query commands report as [level_to_min_exp (l + 1) - e], is never
    negative and is one short: with it the next level is reached one EXP
    later, and below level 49 not yet. *)
Theorem remaining_exp_one_short (e : Z) :
  e < exp_cap →
  ∃ l next : Z,
    exp_to_level e = Ok l ∧ l < 50 ∧ level_to_min_exp (l + 1) = Ok next
    ∧ 0 ≤ next - e
    ∧ exp_to_level (e + (next - e) + 1) = Ok (l + 1)
    ∧ (l < 49 → exp_to_level (e + (next - e)) = Ok l).
Proof.
  intros He. exists (level_table e), (min_exp_table (level_table e + 1)).
  pose proof (level_table_range e) as Hr.
  assert (H50 : level_table e < 50).
  { pose proof (proj1 (level_table_50 e)). lia. }
  split; [apply exp_to_level_table; zrange|].
  split; [exact H50|].
  split; [apply level_to_min_exp_table|].
  replace (e + (min_exp_table (level_table e + 1) - e))
    with (min_exp_table (level_table e + 1)) by lia.
  destruct (Z.eq_dec (level_table e) 49) as [H49|H49].
  { rewrite H49. change (min_exp_table (49 + 1)) with 50000.
    unfold exp_cap in He. split; [lia|]. split; [|lia].
    apply exp_to_level_saturates. zrange. }
  set (L := level_table e + 1) in *.
  assert (HL : 2 ≤ L ≤ 49) by lia.
  pose proof (proj2 (level_table_reached e L HL)) as Hn.
  pose proof (threshold_below_cap L HL) as Ht.
  assert (Hm : min_exp_table L = threshold L - 1).
  { unfold min_exp_table. rewrite (proj2 (Z.leb_gt L 1)) by lia.
    now rewrite (proj2 (Z.leb_gt 50 L)) by lia. }
  split; [lia|]. rewrite Hm. split.
  - replace (threshold L - 1 + 1) with (threshold L) by lia.
    rewrite exp_to_level_table by zrange.
    now rewrite level_table_threshold.
  - intros _. rewrite exp_to_level_table by zrange.
    rewrite level_table_below_threshold by exact HL. f_equal. lia.
Qed.

Lemma remaining_exp_one_short_witness :
  ∃ l next : Z,
    exp_to_level 20 = Ok l ∧ l < 50 ∧ level_to_min_exp (l + 1) = Ok next
    ∧ 0 ≤ next - 20
    ∧ exp_to_level (20 + (next - 20) + 1) = Ok (l + 1)
    ∧ (l < 49 → exp_to_level (20 + (next - 20)) = Ok l).
Proof. apply (remaining_exp_one_short 20). reflexivity. Defined.

(** *** [batch_exp_to_level] *)

Lemma batch_exp_to_level_cons (e : Z) (exp_list : list Z) :
  batch_exp_to_level (e :: exp_list)
  = l ← exp_to_level e; ls ← batch_exp_to_level exp_list; Ok (l :: ls).
Proof. reflexivity. Qed.

(** X12.  When every EXP of the list is below [2^64 - 1],
    [batch_exp_to_level] returns a list of the same length that holds,
    place for place, the level of the EXP, a level from 1 to 50. *)
Theorem batch_exp_to_level_each (exp_list : list Z) :
  Forall (λ e, e < uint64_max) exp_list →
  ∃ levels : list Z,
    batch_exp_to_level exp_list = Ok levels
    ∧ length levels = length exp_list
    ∧ ∀ (i : nat) (e : Z), exp_list !! i = Some e →
        ∃ l : Z, levels !! i = Some l ∧ exp_to_level e = Ok l ∧ 1 ≤ l ≤ 50.
Proof.
  induction 1 as [|e exp_list He _ (levels & Hb & Hlen & Hi)].
  { exists []. repeat split. intros i e Hi. done. }
  exists (level_table e :: levels).
  rewrite batch_exp_to_level_cons, exp_to_level_table, Hb by exact He.
  split; [reflexivity|]. split; [simpl; lia|].
  intros [|i] e' Hi'; simpl in Hi'.
  - simplify_eq. exists (level_table e').
    split; [reflexivity|].
    split; [now apply exp_to_level_table|apply level_table_range].
  - apply Hi, Hi'.
Qed.

Lemma batch_exp_to_level_each_witness :
  ∃ levels : list Z,
    batch_exp_to_level [0; 500; 50000] = Ok levels
    ∧ length levels = length [0; 500; 50000]
    ∧ ∀ (i : nat) (e : Z), [0; 500; 50000] !! i = Some e →
        ∃ l : Z, levels !! i = Some l ∧ exp_to_level e = Ok l ∧ 1 ≤ l ≤ 50.
Proof.
  apply (batch_exp_to_level_each [0; 500; 50000]).
  repeat constructor.
Defined.

(** X13.  [batch_exp_to_level] raises exactly when some EXP of the list
    is [2^64 - 1] or more, and then [TypeError]: one such EXP loses the
    levels of the whole list. *)
Theorem batch_exp_to_level_raises_iff (exp_list : list Z) (x : exn) :
  batch_exp_to_level exp_list = Raise x
  ↔ x = TypeError ∧ Exists (λ e, uint64_max ≤ e) exp_list.
Proof.
  revert x. induction exp_list as [|e exp_list IH]; intros x.
  { split; [discriminate|]. intros [_ H]. inversion H. }
  rewrite batch_exp_to_level_cons, Exists_cons.
  destruct (Z_lt_ge_dec e uint64_max) as [Hlt|Hge].
  - rewrite exp_to_level_table by exact Hlt. simpl.
    destruct (batch_exp_to_level exp_list) as [ls|y]; simpl.
    + split; [discriminate|]. intros [Hx [?|He]]; [lia|].
      now pose proof (proj2 (IH x) (conj Hx He)).
    + split.
      * intros [= <-]. destruct (proj1 (IH y) eq_refl) as [-> He]. auto.
      * intros [-> [?|He]]; [lia|].
        apply (proj2 (IH TypeError)). auto.
  - rewrite exp_to_level_too_large by lia. simpl.
    split; [intros [= <-]; split; [reflexivity|left; lia]|].
    now intros [-> _].
Qed.
End LevelTable.

(** ** core/distribution.py: the values that [parse_exp_range] reads *)

Section LabelValues.
Local Open Scope Z_scope.
Local Arguments String.append !_ _ / : simpl nomatch.

Lemma digit_value_range (c : ascii) (d : Z) :
  digit_value c = Some d → 0 ≤ d ≤ 9.
Proof.
  unfold digit_value.
  destruct (_ && _) eqn:H; [|discriminate]. intros [= <-]. lia.
Qed.

Lemma scan_digits_nonneg (n : nat) :
  ∀ (s : string) (acc v : Z) (rest : string),
    (String.length s ≤ n)%nat → 0 ≤ acc →
    scan_digits acc s = Ok (v, rest) → 0 ≤ v.
Proof.
  induction n as [|n IH]; intros s acc v rest Hlen Hacc Hs.
  - destruct s; [|simpl in Hlen; lia]. simpl in Hs. now simplify_eq.
  - destruct s as [|c s]; simpl in Hs; [now simplify_eq|].
    simpl in Hlen.
    destruct (digit_value c) as [d|] eqn:Hd.
    + apply digit_value_range in Hd.
      eapply (IH s); [lia| |exact Hs]. lia.
    + destruct (Ascii.eqb c "_"); [|now simplify_eq].
      destruct s as [|c' s]; [discriminate|].
      destruct (digit_value c') as [d|] eqn:Hd'; [|discriminate].
      apply digit_value_range in Hd'. simpl in Hlen.
      eapply (IH s); [lia| |exact Hs]. lia.
Qed.

Lemma contains_lstrip (sep : ascii) (s : string) :
  contains sep (lstrip s) = true → contains sep s = true.
Proof.
  induction s as [|c s IH]; simpl; [done|].
  destruct (is_space c); [|done].
  intros H. rewrite IH by exact H. apply orb_true_r.
Qed.

(** A string without ["-"] is never read as a negative integer. *)
Lemma py_int_nonneg (s : string) (v : Z) :
  contains "-" s = false → py_int s = Ok v → 0 ≤ v.
Proof.
  intros Hdash. unfold py_int.
  destruct (lstrip s) as [|c t] eqn:Hl; [discriminate|].
  assert (Hc : Ascii.eqb c "-" = false).
  { destruct (Ascii.eqb c "-") eqn:Hc; [|reflexivity].
    rewrite (contains_lstrip "-" s) in Hdash; [discriminate|].
    rewrite Hl. simpl. now rewrite Hc. }
  assert (Hsign : ∃ u, split_sign (String c t) = (1, u)).
  { unfold split_sign. rewrite Hc. destruct (Ascii.eqb c "+"); eauto. }
  destruct Hsign as [u ->].
  destruct u as [|c' u]; [discriminate|].
  destruct (digit_value c') as [d|] eqn:Hd; [|discriminate].
  apply digit_value_range in Hd.
  destruct (scan_digits d u) as [[n rest]|] eqn:Hscan; [simpl|discriminate].
  apply (scan_digits_nonneg (String.length u)) in Hscan; [|lia..].
  destruct (lstrip rest); [|discriminate].
  case_bool_decide; [|discriminate]. intros [= <-]. lia.
Qed.

Lemma split_parts_free (sep : ascii) (s : string) :
  Forall (λ p, contains sep p = false) (split sep s).
Proof.
  induction s as [|c s IH]; simpl; [by repeat constructor|].
  destruct (Ascii.eqb c sep) eqn:Hc; [by constructor|].
  destruct (split sep s) as [|p ps].
  - repeat constructor. simpl. now rewrite Hc.
  - inversion_clear IH as [|?? Hp Hps]. constructor; [|exact Hps].
    simpl. now rewrite Hc, Hp.
Qed.

Lemma mapM_cons {A B} (f : A → result B) (x : A) (l : list A) :
  mapM f (x :: l) = y ← f x; k ← mapM f l; Ok (y :: k).
Proof. reflexivity. Qed.

Lemma mapM_py_int_nonneg (parts : list string) :
  Forall (λ p, contains "-" p = false) parts →
  ∀ vs, mapM py_int parts = Ok vs → Forall (λ v, 0 ≤ v) vs.
Proof.
  induction 1 as [|p parts Hp _ IH]; intros vs.
  { intros [= <-]. constructor. }
  rewrite mapM_cons.
  destruct (py_int p) as [v|] eqn:Hv; [simpl|discriminate].
  destruct (mapM py_int parts) as [vs'|]; [simpl|discriminate].
  intros [= <-]. constructor; [|now apply IH].
  eapply py_int_nonneg; [exact Hp|exact Hv].
Qed.

(** X14.  [parse_exp_range] never returns a negative bound, whatever the
    label: a ["-"] is always taken as the separator, never as a sign. *)
Theorem parse_exp_range_nonnegative (s : string) :
  0 ≤ (parse_exp_range s).1 ∧ 0 ≤ (parse_exp_range s).2.
Proof.
  unfold parse_exp_range, parse_exp_range_body.
  destruct (contains "-" s) eqn:Hdash.
  - pose proof (mapM_py_int_nonneg _ (split_parts_free "-" s)) as H.
    destruct (mapM py_int (split "-" s)) as [vs|]; [|simpl; lia].
    specialize (H vs eq_refl).
    destruct vs as [|a [|b [|c vs]]]; simpl; try lia.
    inversion_clear H as [|?? Ha Hb]. inversion_clear Hb as [|?? Hb' _].
    lia.
  - destruct (py_int s) as [v|] eqn:Hv; simpl; [|lia].
    pose proof (py_int_nonneg s v Hdash Hv). lia.
Qed.

(** The decimal notation of a natural number, and the number of its
    digits. *)
Lemma py_int_decimal (n : N) :
  decimal_digits n ≤ max_str_digits →
  py_int (DecimalString.NilZero.string_of_uint (N.to_uint n)) = Ok (Z.of_N n)
  ∧ contains "-" (DecimalString.NilZero.string_of_uint (N.to_uint n)) = false.
Proof.
  unfold decimal_digits.
  pose proof (DecimalN.Unsigned.of_to n) as Hn.
  set (d := N.to_uint n) in *.
  assert (Hd : d ≠ Decimal.Nil).
  { intros Hnil. rewrite Hnil in Hn. subst d. destruct n; discriminate. }
  assert (Hs : DecimalString.NilZero.string_of_uint d
               = DecimalString.NilEmpty.string_of_uint d)
    by (destruct d; [contradiction|reflexivity..]).
  clearbody d. subst n. rewrite Hs. intros Hlen.
  apply py_int_uint; [apply DecimalString.NilEmpty.usu| |exact Hlen].
  now destruct d.
Qed.

(** X15.  The label made of the decimal notations of two natural numbers
    [a] and [b] around one ["-"], each of at most [max_str_digits]
    digits, is read as the range [(a, b)], whether [a <= b] or not. *)
Theorem parse_exp_range_decimal_pair (a b : N) :
  decimal_digits a ≤ max_str_digits → decimal_digits b ≤ max_str_digits →
  parse_exp_range
    (DecimalString.NilZero.string_of_uint (N.to_uint a)
     +:+ "-" +:+ DecimalString.NilZero.string_of_uint (N.to_uint b))
  = (Z.of_N a, Z.of_N b).
Proof.
  intros Hla Hlb.
  destruct (py_int_decimal a Hla) as [Ha Hda].
  destruct (py_int_decimal b Hlb) as [Hb Hdb].
  unfold parse_exp_range, parse_exp_range_body.
  rewrite contains_app. simpl. rewrite orb_true_r.
  rewrite split_at by exact Hda. rewrite split_absent by exact Hdb.
  rewrite !mapM_cons, Ha, Hb. reflexivity.
Qed.

Lemma parse_exp_range_decimal_pair_witness :
  parse_exp_range "100-199" = (100, 199).
Proof.
  apply (parse_exp_range_decimal_pair 100 199); vm_compute; discriminate.
Defined.

Lemma split_snoc (sep : ascii) (s : string) :
  split sep (s +:+ String sep "") = split sep s ++ [""].
Proof.
  induction s as [|c s IH]; simpl.
  - now rewrite Ascii.eqb_refl.
  - destruct (Ascii.eqb c sep); [now rewrite IH|].
    rewrite IH. pose proof (split_nonempty sep s).
    now destruct (split sep s).
Qed.

Lemma mapM_raises_at_end {A B} (f : A → result B) (l : list A) (x : A)
    (e : exn) :
  f x = Raise e → ∃ e', mapM f (l ++ [x]) = Raise e'.
Proof.
  intros Hx. induction l as [|y l [e' IH]]; simpl app; rewrite mapM_cons.
  - rewrite Hx. eauto.
  - rewrite IH. destruct (f y); simpl; eauto.
Qed.

(** X16.  A label that begins or ends with ["-"], such as a negative
    number or a range without its upper bound, is read as the fallback
    range (0, 0). *)
Theorem parse_exp_range_dash_at_end (s : string) :
  parse_exp_range ("-" +:+ s) = (0, 0)
  ∧ parse_exp_range (s +:+ "-") = (0, 0).
Proof.
  unfold parse_exp_range, parse_exp_range_body. split.
  - reflexivity.
  - rewrite contains_app. simpl contains. rewrite orb_true_r.
    rewrite split_snoc.
    destruct (mapM_raises_at_end py_int (split "-" s) "" ValueError eq_refl)
      as [e ->].
    reflexivity.
Qed.
End LabelValues.

(** ** core/distribution.py: what the aggregation counts *)

Section AggregationMore.
Local Open Scope Z_scope.

Lemma row_level_mid_exp (r : row) : row_level r = exp_to_level (mid_exp r).
Proof.
  unfold row_level, mid_exp. now destruct (parse_exp_range (exp_group r)).
Qed.

Lemma row_level_defined (r : row) :
  mid_exp r < uint64_max → ∃ l, row_level r = Ok l.
Proof.
  intros H. rewrite row_level_mid_exp, exp_to_level_table by exact H. eauto.
Qed.

Lemma row_level_raises (r : row) (x : exn) :
  row_level r = Raise x ↔ x = TypeError ∧ uint64_max ≤ mid_exp r.
Proof.
  rewrite row_level_mid_exp. destruct (Z_lt_ge_dec (mid_exp r) uint64_max).
  - rewrite exp_to_level_table by assumption. split; [discriminate|lia].
  - rewrite exp_to_level_too_large by lia.
    split; [intros [= <-]; split; [reflexivity|lia]|now intros [-> _]].
Qed.

Lemma rows_defined (df : list row) :
  Forall (λ r, mid_exp r < uint64_max) df →
  Forall (λ r, ∃ l, row_level r = Ok l) df.
Proof.
  intros H. eapply Forall_impl; [exact H|]. intros r. apply row_level_defined.
Qed.

Lemma accumulate_insert (d d' : gmap Z Z) (r : row) :
  accumulate d r = Ok d' →
  ∃ l, row_level r = Ok l ∧ d' = <[l := default 0 (d !! l) + count r]> d.
Proof.
  unfold accumulate. destruct (row_level r) as [l|]; [simpl|discriminate].
  intros [= <-]. exists l. split; [reflexivity|].
  destruct (d !! l); reflexivity.
Qed.

Lemma Zsum_cons (x : Z) (l : list Z) : Zsum (x :: l) = x + Zsum l.
Proof. reflexivity. Qed.

Lemma rows_at_cons (L : Z) (r : row) (df : list row) :
  rows_at L (r :: df)
  = if decide (row_level r = Ok L) then r :: rows_at L df else rows_at L df.
Proof. unfold rows_at. now rewrite filter_cons. Qed.

(** The dictionary after the loop: a level that no row is counted at
    keeps its entry, or none; the others hold the sum of what they held
    and of the counts of their rows. *)
Lemma iterrows_lookup (df : list row) :
  ∀ d d' : gmap Z Z, iterrows d df = Ok d' →
  ∀ L : Z,
    d' !! L = if decide (rows_at L df = []) then d !! L
              else Some (default 0 (d !! L) + count_at L df).
Proof.
  induction df as [|r df IH]; intros d d' Hd L.
  { simpl in Hd. simplify_eq. reflexivity. }
  simpl in Hd.
  destruct (accumulate d r) as [d1|] eqn:H1; [simpl in Hd|discriminate].
  apply accumulate_insert in H1 as (l & Hl & ->).
  rewrite (IH _ _ Hd L). unfold count_at. rewrite rows_at_cons, Hl.
  destruct (decide (Ok l = Ok L)) as [[= ->]|Hne].
  - rewrite lookup_insert_eq. destruct (decide (r :: rows_at L df = [])) as [?|_]; [done|].
    rewrite fmap_cons, Zsum_cons.
    destruct (decide (rows_at L df = [])) as [->|_]; simpl;
      apply (f_equal Some); lia.
  - rewrite lookup_insert_ne by congruence. reflexivity.
Qed.

Lemma frame_elem (L c : Z) (items : list (Z * Z)) :
  LevelRow L c ∈ frame items ↔ (L, c) ∈ items.
Proof.
  unfold frame. rewrite list_elem_of_fmap. split.
  - intros ([l' c'] & [= -> ->] & H). exact H.
  - intros H. now exists (L, c).
Qed.

Lemma calculate_level_distribution_rows (df : list row)
    (rows : list level_row) :
  calculate_level_distribution df = Ok rows →
  ∀ L c : Z, LevelRow L c ∈ rows ↔ rows_at L df ≠ [] ∧ c = count_at L df.
Proof.
  intros (d & Hd & -> & _)%calculate_level_distribution_inv L c.
  rewrite frame_elem, (sorted_perm (map_to_list d)), elem_of_map_to_list.
  rewrite (iterrows_lookup df ∅ d Hd L), lookup_empty. simpl.
  destruct (decide (rows_at L df = [])) as [->|Hne].
  - split; [discriminate|]. now intros [? _].
  - split; [intros [= <-]; split; [exact Hne|lia]|].
    now intros [_ ->].
Qed.

Lemma table_defined (df : list row) :
  df ≠ [] → Forall (λ r, mid_exp r < uint64_max) df →
  ∃ rows, calculate_level_distribution df = Ok rows.
Proof.
  intros Hne Hdf.
  apply calculate_level_distribution_defined; [exact Hne|].
  now apply rows_defined.
Qed.

(** X17.  For a table that is not empty and whose midpoints are below
    [2^64 - 1], the frame returned holds a row for exactly the levels at
    which some row of the table is counted, with the sum of the counts of
    these rows. *)
Theorem calculate_level_distribution_per_level (df : list row) :
  df ≠ [] → Forall (λ r, mid_exp r < uint64_max) df →
  ∃ rows : list level_row,
    calculate_level_distribution df = Ok rows
    ∧ ∀ L c : Z,
        LevelRow L c ∈ rows ↔ rows_at L df ≠ [] ∧ c = count_at L df.
Proof.
  intros Hne Hdf. destruct (table_defined df Hne Hdf) as [rows Hrows].
  exists rows. split; [exact Hrows|].
  now apply calculate_level_distribution_rows.
Qed.

Lemma calculate_level_distribution_per_level_witness :
  ∃ rows : list level_row,
    calculate_level_distribution [Row "0-9" 100; Row "abc" 7] = Ok rows
    ∧ ∀ L c : Z,
        LevelRow L c ∈ rows
        ↔ rows_at L [Row "0-9" 100; Row "abc" 7] ≠ []
          ∧ c = count_at L [Row "0-9" 100; Row "abc" 7].
Proof.
  apply (calculate_level_distribution_per_level
           [Row "0-9" 100; Row "abc" 7]).
  - discriminate.
  - repeat constructor.
Defined.

(** A label of more digits than [int] converts is counted at level 1,
    the level of the fallback midpoint 0, whatever number it writes. *)
Example calculate_level_distribution_long_label :
  calculate_level_distribution [Row long_label 10] = Ok [LevelRow 1 10].
Proof.
  unfold calculate_level_distribution, iterrows, accumulate.
  rewrite (row_level_range long_label 0 0 10) by (vm_compute; reflexivity).
  change ((0 + 0) `div` 2) with 0.
  rewrite exp_to_level_table by reflexivity.
  vm_compute. reflexivity.
Qed.

(** X18.  For such a table the counts of the frame add up to the counts
    of the table. *)
Theorem calculate_level_distribution_total (df : list row) :
  df ≠ [] → Forall (λ r, mid_exp r < uint64_max) df →
  ∃ rows : list level_row,
    calculate_level_distribution df = Ok rows
    ∧ Zsum (user_count <$> rows) = Zsum (count <$> df).
Proof.
  intros Hne Hdf. destruct (table_defined df Hne Hdf) as [rows Hrows].
  exists rows. split; [exact Hrows|].
  now apply calculate_level_distribution_ok.
Qed.

Lemma calculate_level_distribution_total_witness :
  ∃ rows : list level_row,
    calculate_level_distribution [Row "0-9" 100; Row "10-19" 50] = Ok rows
    ∧ Zsum (user_count <$> rows)
      = Zsum (count <$> [Row "0-9" 100; Row "10-19" 50]).
Proof.
  apply (calculate_level_distribution_total
           [Row "0-9" 100; Row "10-19" 50]).
  - discriminate.
  - repeat constructor.
Defined.

Lemma ascending_length (l : list Z) :
  StronglySorted Z.lt l → ∀ a b : Z,
  Forall (λ x, a ≤ x ≤ b) l → Z.of_nat (length l) ≤ Z.max 0 (b - a + 1).
Proof.
  induction 1 as [|x l Hs IH Hx]; intros a b Hab; simpl length; [lia|].
  inversion_clear Hab as [|?? Hxa Hl].
  assert (Hl' : Forall (λ y, x + 1 ≤ y ≤ b) l).
  { rewrite Forall_forall in Hx, Hl |- *. intros y Hy.
    specialize (Hx y Hy). specialize (Hl y Hy). lia. }
  specialize (IH (x + 1) b Hl'). lia.
Qed.

Lemma calculate_level_distribution_levels (df : list row)
    (rows : list level_row) :
  calculate_level_distribution df = Ok rows →
  Forall (λ L, 1 ≤ L ≤ 50) (level <$> rows).
Proof.
  intros Hrows. rewrite Forall_fmap, Forall_forall. intros [L c] Hr. simpl.
  apply (calculate_level_distribution_rows df rows Hrows) in Hr as [Hne _].
  destruct (rows_at L df) as [|r rs] eqn:Hr; [done|].
  assert (Hin : r ∈ rows_at L df) by (rewrite Hr; left).
  unfold rows_at in Hin. apply list_elem_of_filter in Hin as [Hl _].
  rewrite row_level_mid_exp in Hl.
  apply exp_to_level_defined in Hl as [_ ->]. apply level_table_range.
Qed.

(** X19.  For such a table the frame has one row for a level, the levels
    ascend strictly and lie between 1 and 50, so that there are at most
    50 rows. *)
Theorem calculate_level_distribution_ascending (df : list row) :
  df ≠ [] → Forall (λ r, mid_exp r < uint64_max) df →
  ∃ rows : list level_row,
    calculate_level_distribution df = Ok rows
    ∧ StronglySorted Z.lt (level <$> rows)
    ∧ Forall (λ L, 1 ≤ L ≤ 50) (level <$> rows)
    ∧ (1 ≤ length rows ≤ 50)%nat.
Proof.
  intros Hne Hdf. destruct (table_defined df Hne Hdf) as [rows Hrows].
  exists rows. split; [exact Hrows|].
  pose proof (calculate_level_distribution_ok df rows Hrows) as [_ Hs].
  pose proof (calculate_level_distribution_levels df rows Hrows) as Hl.
  pose proof (ascending_length _ Hs 1 50 Hl) as Hn.
  rewrite length_fmap in Hn.
  apply calculate_level_distribution_inv in Hrows as (_ & _ & _ & Hr).
  repeat split; [exact Hs|exact Hl| |lia].
  destruct rows; [done|simpl; lia].
Qed.

Lemma calculate_level_distribution_ascending_witness :
  ∃ rows : list level_row,
    calculate_level_distribution [Row "40000" 3; Row "0-9" 100] = Ok rows
    ∧ StronglySorted Z.lt (level <$> rows)
    ∧ Forall (λ L, 1 ≤ L ≤ 50) (level <$> rows)
    ∧ (1 ≤ length rows ≤ 50)%nat.
Proof.
  apply (calculate_level_distribution_ascending
           [Row "40000" 3; Row "0-9" 100]).
  - discriminate.
  - repeat constructor.
Defined.

Lemma iterrows_raises (df : list row) (x : exn) :
  ∀ d : gmap Z Z,
    iterrows d df = Raise x
    ↔ x = TypeError ∧ Exists (λ r, uint64_max ≤ mid_exp r) df.
Proof.
  induction df as [|r df IH]; intros d; simpl.
  { split; [discriminate|]. intros [_ H]. inversion H. }
  rewrite Exists_cons. unfold accumulate at 1.
  destruct (row_level r) as [l|y] eqn:Hl; simpl.
  - rewrite IH. split; [intros [-> H]; auto|].
    intros [-> [H|H]]; [|auto].
    pose proof (proj2 (row_level_raises r TypeError) (conj eq_refl H)).
    congruence.
  - apply row_level_raises in Hl as [-> Hl].
    split; [intros [= <-]; auto|now intros [-> _]].
Qed.

(** X21.  The order of the rows of the table does not matter: two tables
    with the same rows in another order give the same result, the same
    frame or the same exception. *)
Theorem calculate_level_distribution_permutation (df1 df2 : list row) :
  df1 ≡ₚ df2 →
  calculate_level_distribution df1 = calculate_level_distribution df2.
Proof.
  intros Hp.
  destruct (decide (Exists (λ r, uint64_max ≤ mid_exp r) df1)) as [Hx|Hx].
  { unfold calculate_level_distribution.
    rewrite (proj2 (iterrows_raises df1 TypeError ∅) (conj eq_refl Hx)).
    rewrite Hp in Hx.
    now rewrite (proj2 (iterrows_raises df2 TypeError ∅) (conj eq_refl Hx)). }
  assert (Hd : ∀ df, ¬ Exists (λ r, uint64_max ≤ mid_exp r) df →
               ∃ d, iterrows ∅ df = Ok d).
  { intros df Hn. destruct (iterrows ∅ df) as [d|y] eqn:Hd; [eauto|].
    apply iterrows_raises in Hd as [_ Hd]. contradiction. }
  destruct (Hd df1 Hx) as [d1 H1].
  rewrite Hp in Hx. destruct (Hd df2 Hx) as [d2 H2].
  unfold calculate_level_distribution. rewrite H1, H2. simpl.
  replace d2 with d1; [reflexivity|].
  apply map_eq. intros L.
  rewrite (iterrows_lookup df1 ∅ d1 H1 L), (iterrows_lookup df2 ∅ d2 H2 L).
  assert (Hr : rows_at L df1 ≡ₚ rows_at L df2).
  { unfold rows_at. now rewrite Hp. }
  assert (Hc : count_at L df1 = count_at L df2).
  { unfold count_at. apply Zsum_perm. now rewrite Hr. }
  rewrite Hc.
  destruct (decide (rows_at L df1 = [])) as [He|Hne].
  - rewrite He in Hr. apply Permutation_nil_l in Hr.
    now rewrite decide_True by (symmetry; exact Hr).
  - rewrite decide_False; [reflexivity|].
    intros He. rewrite He in Hr. now apply Permutation_nil_r in Hr.
Qed.

Lemma calculate_level_distribution_permutation_witness :
  calculate_level_distribution [Row "0-9" 100; Row "40000" 3]
  = calculate_level_distribution [Row "40000" 3; Row "0-9" 100].
Proof.
  apply (calculate_level_distribution_permutation
           [Row "0-9" 100; Row "40000" 3] [Row "40000" 3; Row "0-9" 100]).
  apply Permutation_swap.
Defined.
End AggregationMore.

(** ** core/chart.py: the old levels against the new ones *)

Section OldLevels.
Local Open Scope Z_scope.

(** X22.  The old mapping is non-decreasing, and its levels go from 1 to
    6. *)
Theorem old_exp_to_level_monotone (e1 e2 : Z) :
  e1 ≤ e2 →
  1 ≤ old_exp_to_level e1 ≤ old_exp_to_level e2 ∧ old_exp_to_level e2 ≤ 6.
Proof.
  intros H12. unfold old_exp_to_level.
  repeat case_bool_decide; lia.
Qed.

Lemma old_exp_to_level_monotone_witness :
  1 ≤ old_exp_to_level 999 ≤ old_exp_to_level 1000
  ∧ old_exp_to_level 1000 ≤ 6.
Proof. apply (old_exp_to_level_monotone 999 1000). discriminate. Defined.

(** X23.  Below [2^64 - 1] the new level of an EXP is never below its
    old level; the two are equal up to the EXP 32, where both are 1, and
    from 33 on the new level is the greater. *)
Theorem old_level_at_most_new (e : Z) :
  e < uint64_max →
  ∃ l : Z,
    exp_to_level e = Ok l ∧ old_exp_to_level e ≤ l
    ∧ (old_exp_to_level e = l ↔ e ≤ 32).
Proof.
  intros He. exists (level_table e).
  split; [now apply exp_to_level_table|].
  pose proof (level_table_range e) as Hr.
  pose proof (level_table_ge e 2 ltac:(lia)) as H2.
  pose proof (level_table_ge e 3 ltac:(lia)) as H3.
  pose proof (level_table_ge e 4 ltac:(lia)) as H4.
  pose proof (level_table_ge e 5 ltac:(lia)) as H5.
  pose proof (level_table_ge e 6 ltac:(lia)) as H6.
  pose proof (level_table_ge e 7 ltac:(lia)) as H7.
  change (threshold 2) with 33 in H2. change (threshold 3) with 72 in H3.
  change (threshold 4) with 123 in H4. change (threshold 5) with 187 in H5.
  change (threshold 6) with 266 in H6. change (threshold 7) with 360 in H7.
  unfold old_exp_to_level. repeat case_bool_decide; lia.
Qed.

Lemma old_level_at_most_new_witness :
  ∃ l : Z,
    exp_to_level 5000 = Ok l ∧ old_exp_to_level 5000 ≤ l
    ∧ (old_exp_to_level 5000 = l ↔ 5000 ≤ 32).
Proof. apply (old_level_at_most_new 5000). reflexivity. Defined.
End OldLevels.

(** ** The limit of [str] *)

Section StrLimit.
Local Open Scope Z_scope.

Lemma str_limit_large : 2 ^ 65 < str_limit.
Proof. reflexivity. Qed.

Lemma str_defined_iff (z : Z) :
  str_defined z = true ↔ - str_limit < z < str_limit.
Proof. unfold str_defined. rewrite bool_decide_eq_true. lia. Qed.

Lemma str_defined_small (z : Z) :
  - 2 ^ 65 ≤ z ≤ 2 ^ 65 → str_defined z = true.
Proof. intros Hz. apply str_defined_iff. pose proof str_limit_large. lia. Qed.

Lemma str_undefined_iff (z : Z) :
  str_defined z = false ↔ z ≤ - str_limit ∨ str_limit ≤ z.
Proof. unfold str_defined. rewrite bool_decide_eq_false. lia. Qed.
End StrLimit.

(** ** core/sql_generator.py: the migration table *)

Section Migration.
Local Open Scope Z_scope.

Lemma write_users_cons (uid e : Z) (user_data : list (Z * Z)) :
  write_users ((uid, e) :: user_data)
  = match exp_to_level e with
    | Ok new_level =>
        if str_defined uid && str_defined e then
          ([Int uid; Int e; Int (Z.min 50 (Z.max 1 (e `div` 1000 + 1)));
            Int new_level] :: (write_users user_data).1,
           (write_users user_data).2)
        else ([], Raise ValueError)
    | Raise x => ([], Raise x)
    end.
Proof.
  simpl. destruct (exp_to_level e) as [l|] eqn:Hl; [|reflexivity].
  apply exp_to_level_defined in Hl as [_ ->].
  pose proof (level_table_range e) as Hr.
  unfold writerow. simpl forallb.
  rewrite (str_defined_small (level_table e)) by lia.
  rewrite (str_defined_small (Z.min 50 _)) by lia.
  rewrite !andb_true_r.
  destruct (str_defined uid && str_defined e); [|reflexivity].
  now destruct (write_users user_data).
Qed.

Lemma write_users_writable (uid e : Z) (user_data : list (Z * Z)) :
  writable (uid, e) →
  write_users ((uid, e) :: user_data)
  = ([Int uid; Int e; Int (Z.min 50 (Z.max 1 (e `div` 1000 + 1)));
      Int (level_table e)] :: (write_users user_data).1,
     (write_users user_data).2).
Proof.
  intros [Hu He]. simpl in Hu, He.
  rewrite write_users_cons, exp_to_level_table by lia.
  rewrite (proj2 (str_defined_iff uid)) by lia.
  rewrite (proj2 (str_defined_iff e)); [reflexivity|].
  pose proof str_limit_large. unfold uint64_max in He. lia.
Qed.

Lemma write_users_not_writable (uid e : Z) (user_data : list (Z * Z)) :
  ¬ writable (uid, e) →
  write_users ((uid, e) :: user_data)
  = ([], Raise (if bool_decide (uint64_max ≤ e) then TypeError
                else ValueError)).
Proof.
  intros Hw. rewrite write_users_cons. case_bool_decide as He.
  - now rewrite exp_to_level_too_large.
  - rewrite exp_to_level_table by lia.
    destruct (str_defined uid) eqn:Hu; [|reflexivity].
    destruct (str_defined e) eqn:He'; [|reflexivity].
    apply str_defined_iff in Hu, He'. destruct Hw. unfold writable. simpl. lia.
Qed.

Lemma generate_user_migration_csv_rows (user_data : list (Z * Z)) :
  generate_user_migration_csv user_data
  = (csv_header :: (write_users user_data).1, (write_users user_data).2).
Proof.
  unfold generate_user_migration_csv. simpl.
  now destruct (write_users user_data).
Qed.

Lemma write_users_complete (user_data : list (Z * Z)) :
  Forall writable user_data →
  (write_users user_data).2 = Ok ()
  ∧ length (write_users user_data).1 = length user_data
  ∧ ∀ (i : nat) (uid e : Z), user_data !! i = Some (uid, e) →
      ∃ old_level new_level : Z,
        (write_users user_data).1 !! i
        = Some [Int uid; Int e; Int old_level; Int new_level]
        ∧ exp_to_level e = Ok new_level
        ∧ 1 ≤ old_level ≤ 50 ∧ 1 ≤ new_level ≤ 50.
Proof.
  induction 1 as [|[uid e] user_data He _ (IH1 & IH2 & IH3)].
  { repeat split. intros i uid e Hi. done. }
  rewrite write_users_writable by exact He. simpl.
  split; [exact IH1|]. split; [now rewrite IH2|].
  intros [|i] uid' e' Hi; simpl in Hi.
  - simplify_eq. eexists _, _. split; [reflexivity|].
    destruct He as [_ He]. simpl in He.
    split; [apply exp_to_level_table; lia|].
    split; [lia|apply level_table_range].
  - apply IH3, Hi.
Qed.

(** X24.  When every user is writable, that is when the id and the EXP
    are of at most [max_str_digits] digits and the EXP is below
    [2^64 - 1], the table is complete: the header, then one row for each
    user in the order given, with the user's id and EXP, an old level
    from 1 to 50 and the new level, which is [exp_to_level] of the EXP
    and lies between 1 and 50. *)
Theorem generate_user_migration_csv_complete (user_data : list (Z * Z)) :
  Forall writable user_data →
  ∃ rows : list (list cell),
    generate_user_migration_csv user_data = (csv_header :: rows, Ok ())
    ∧ length rows = length user_data
    ∧ ∀ (i : nat) (uid e : Z), user_data !! i = Some (uid, e) →
        ∃ old_level new_level : Z,
          rows !! i = Some [Int uid; Int e; Int old_level; Int new_level]
          ∧ exp_to_level e = Ok new_level
          ∧ 1 ≤ old_level ≤ 50 ∧ 1 ≤ new_level ≤ 50.
Proof.
  intros Hall. rewrite generate_user_migration_csv_rows.
  destruct (write_users_complete user_data Hall) as (H1 & H2 & H3).
  exists (write_users user_data).1. rewrite H1. auto.
Qed.

Lemma generate_user_migration_csv_complete_witness :
  ∃ rows : list (list cell),
    generate_user_migration_csv [(1, 0); (2, -40); (3, 70000)]
    = (csv_header :: rows, Ok ())
    ∧ length rows = length [(1, 0); (2, -40); (3, 70000)]
    ∧ ∀ (i : nat) (uid e : Z),
        [(1, 0); (2, -40); (3, 70000)] !! i = Some (uid, e) →
        ∃ old_level new_level : Z,
          rows !! i = Some [Int uid; Int e; Int old_level; Int new_level]
          ∧ exp_to_level e = Ok new_level
          ∧ 1 ≤ old_level ≤ 50 ∧ 1 ≤ new_level ≤ 50.
Proof.
  apply (generate_user_migration_csv_complete
           [(1, 0); (2, -40); (3, 70000)]).
  repeat constructor.
Defined.

Lemma write_users_app_raises (pre post : list (Z * Z)) (uid e : Z) :
  Forall writable pre → ¬ writable (uid, e) →
  write_users (pre ++ (uid, e) :: post)
  = ((write_users pre).1,
     Raise (if bool_decide (uint64_max ≤ e) then TypeError else ValueError)).
Proof.
  intros Hpre He. induction Hpre as [|[uid' e'] pre He' _ IH]; simpl app.
  - now rewrite write_users_not_writable.
  - rewrite !write_users_writable by exact He'. rewrite IH. reflexivity.
Qed.

(** X25.  At the first user who is not writable the function raises, and
    the file is left with the header and the rows of the users before
    that one: no row for that user nor for any user after it.  What is
    raised is [TypeError] for an EXP of [2^64 - 1] or more, where
    [exp_to_level] fails, and else [ValueError], where the id or the EXP
    has more than [max_str_digits] digits and [writerow] fails. *)
Theorem generate_user_migration_csv_partial (pre post : list (Z * Z))
    (uid e : Z) :
  Forall writable pre → ¬ writable (uid, e) →
  generate_user_migration_csv (pre ++ (uid, e) :: post)
  = ((generate_user_migration_csv pre).1,
     Raise (if bool_decide (uint64_max ≤ e) then TypeError else ValueError))
  ∧ (generate_user_migration_csv pre).2 = Ok ()
  ∧ length (generate_user_migration_csv pre).1 = S (length pre).
Proof.
  intros Hpre He. rewrite !generate_user_migration_csv_rows.
  rewrite write_users_app_raises by assumption.
  destruct (write_users_complete pre Hpre) as (H1 & H2 & _).
  simpl. now rewrite H1, H2.
Qed.

Lemma generate_user_migration_csv_partial_witness :
  (generate_user_migration_csv
     ([(1, 10)] ++ (2, 18446744073709551615) :: [(3, 20)])
   = ((generate_user_migration_csv [(1, 10)]).1, Raise TypeError)
   ∧ (generate_user_migration_csv [(1, 10)]).2 = Ok ()
   ∧ length (generate_user_migration_csv [(1, 10)]).1 = S (length [(1, 10)]))
  ∧ (generate_user_migration_csv ([(1, 10)] ++ (str_limit, 0) :: [(3, 20)])
     = ((generate_user_migration_csv [(1, 10)]).1, Raise ValueError)
     ∧ (generate_user_migration_csv [(1, 10)]).2 = Ok ()
     ∧ length (generate_user_migration_csv [(1, 10)]).1
       = S (length [(1, 10)])).
Proof.
  split.
  - apply (generate_user_migration_csv_partial
             [(1, 10)] [(3, 20)] 2 18446744073709551615).
    + repeat constructor.
    + unfold writable, uint64_max. simpl. lia.
  - apply (generate_user_migration_csv_partial
             [(1, 10)] [(3, 20)] str_limit 0).
    + repeat constructor.
    + unfold writable. simpl. pose proof str_limit_large. lia.
Defined.
End Migration.

(** ** The query commands *)

Section Commands.
Local Open Scope Z_scope.
Local Arguments String.append !_ _ / : simpl nomatch.

(** *** Printing *)

Lemma print_all_defined (ms : list message) :
  forallb formats ms = true → print_all ms = (ms, Ok ()).
Proof.
  induction ms as [|m ms IH]; simpl; [reflexivity|].
  intros [-> Hms]%andb_true_iff. now rewrite IH.
Qed.

Lemma print_all_raises (ms : list message) (x : exn) :
  (print_all ms).2 = Raise x → x = ValueError.
Proof.
  induction ms as [|m ms IH]; simpl; [discriminate|].
  destruct (formats m); [|now intros [= <-]].
  destruct (print_all ms). exact IH.
Qed.

Lemma level_table_nonpositive (e : Z) : e ≤ 0 → level_table e = 1.
Proof. intros He. unfold level_table. now rewrite (proj2 (Z.leb_le e 0)). Qed.

(** *** The report on an EXP *)

Lemma remaining_nonneg (e : Z) :
  level_table e < 50 → 0 ≤ min_exp_table (level_table e + 1) - e.
Proof.
  intros H50. pose proof (level_table_range e) as Hr.
  destruct (Z.eq_dec (level_table e) 49) as [H49|H49].
  - rewrite H49. change (min_exp_table (49 + 1)) with 50000.
    pose proof (proj2 (level_table_50 e)). unfold exp_cap in *. lia.
  - pose proof (proj2 (level_table_reached e (level_table e + 1)
                         ltac:(lia))).
    lia.
Qed.

(** The first three lines of the report have a text when the EXP has
    one. *)
Lemma report_lines_defined (e : Z) :
  - str_limit < e < uint64_max →
  forallb formats
    [ExpLine e; LevelLine (level_table e);
     CurrentRangeLine (min_exp_table (level_table e))
       (if bool_decide (level_table e < 50)
        then Finite (min_exp_table (level_table e + 1) - 1)
        else Infinity)]
  = true.
Proof.
  intros He. pose proof str_limit_large as Hl. unfold uint64_max in He.
  pose proof (level_table_range e).
  pose proof (min_exp_table_range (level_table e)).
  pose proof (min_exp_table_range (level_table e + 1)).
  simpl. rewrite (proj2 (str_defined_iff e)) by lia.
  rewrite (str_defined_small (level_table e)) by lia.
  rewrite (str_defined_small (min_exp_table (level_table e))) by lia.
  case_bool_decide; [|reflexivity].
  now rewrite (str_defined_small (min_exp_table (level_table e + 1) - 1))
    by lia.
Qed.

Lemma exp_report_table (h : list message) (e : Z) :
  forallb formats h = true → 32 - str_limit < e < uint64_max →
  exp_report h e
  = (h ++ [ExpLine e; LevelLine (level_table e);
           CurrentRangeLine (min_exp_table (level_table e))
             (if bool_decide (level_table e < 50)
              then Finite (min_exp_table (level_table e + 1) - 1)
              else Infinity)]
       ++ [if bool_decide (level_table e < 50)
           then RemainingLine (min_exp_table (level_table e + 1) - e)
           else MaxLevelLine],
     Ok ()).
Proof.
  intros Hh He. unfold exp_report.
  rewrite exp_to_level_table by lia.
  rewrite get_level_range_table.
  rewrite (level_to_min_exp_table (level_table e + 1)).
  rewrite print_all_defined
    by (rewrite forallb_app, Hh; apply report_lines_defined; lia).
  case_bool_decide as H50;
    [|rewrite (print_all_defined [MaxLevelLine]) by reflexivity;
      now rewrite <- app_assoc].
  rewrite print_all_defined; [now rewrite <- app_assoc|].
  simpl. rewrite andb_true_r. apply str_defined_iff.
  pose proof (remaining_nonneg e H50).
  pose proof (min_exp_table_range (level_table e + 1)).
  pose proof str_limit_large. split; [lia|].
  destruct (Z_le_gt_dec e 0) as [Hneg|Hpos]; [|lia].
  rewrite level_table_nonpositive by exact Hneg.
  change (min_exp_table (1 + 1)) with 32. lia.
Qed.

Lemma exp_report_raises (h : list message) (e : Z) :
  uint64_max ≤ e → exp_report h e = ([], Raise TypeError).
Proof.
  intros He. unfold exp_report. now rewrite exp_to_level_too_large.
Qed.

(** An EXP whose distance to level 2 has no text: the report stops
    before its last line. *)
Lemma exp_report_no_remaining (h : list message) (e : Z) :
  forallb formats h = true → - str_limit < e ≤ 32 - str_limit →
  exp_report h e
  = (h ++ [ExpLine e; LevelLine 1; CurrentRangeLine 0 (Finite 31)],
     Raise ValueError).
Proof.
  intros Hh He. pose proof str_limit_large as Hl. unfold exp_report.
  assert (H0 : e ≤ 0) by lia.
  rewrite exp_to_level_table by (unfold uint64_max; lia).
  rewrite get_level_range_table.
  rewrite (level_to_min_exp_table (level_table e + 1)).
  rewrite print_all_defined
    by (rewrite forallb_app, Hh; apply report_lines_defined;
        unfold uint64_max; lia).
  rewrite level_table_nonpositive by exact H0.
  change (min_exp_table (1 + 1)) with 32. change (min_exp_table 1) with 0.
  rewrite bool_decide_eq_true_2 by lia. simpl print_all.
  rewrite (proj2 (str_undefined_iff (32 - e))) by lia.
  now rewrite app_nil_r.
Qed.

(** An EXP that has no text itself: the report stops before its first
    line. *)
Lemma exp_report_no_exp (h : list message) (e : Z) :
  forallb formats h = true → e ≤ - str_limit →
  exp_report h e = (h, Raise ValueError).
Proof.
  intros Hh He. pose proof str_limit_large as Hl. unfold exp_report.
  rewrite exp_to_level_table by (unfold uint64_max; lia).
  rewrite get_level_range_table.
  assert (Hp : ∀ ms, print_all (h ++ ExpLine e :: ms) = (h, Raise ValueError)).
  { intros ms. clear -Hh He. induction h as [|m h IH]; simpl.
    - now rewrite (proj2 (str_undefined_iff e)) by lia.
    - simpl in Hh. apply andb_true_iff in Hh as [-> Hh]. now rewrite IH. }
  now rewrite Hp.
Qed.

(** The report raises nothing but [TypeError], from [2^64 - 1] on, and
    [ValueError]. *)
Lemma exp_report_ending (h : list message) (e : Z) :
  e < uint64_max →
  (exp_report h e).2 = Ok () ∨ (exp_report h e).2 = Raise ValueError.
Proof.
  intros He. unfold exp_report.
  rewrite exp_to_level_table by exact He.
  rewrite get_level_range_table.
  rewrite (level_to_min_exp_table (level_table e + 1)).
  destruct (print_all (h ++ _)) as [out [[]|x]] eqn:Hp.
  - case_bool_decide; [|left; reflexivity].
    destruct (print_all [RemainingLine _]) as [out' [[]|x]] eqn:Hr;
      [left; reflexivity|].
    right. simpl. f_equal. exact (print_all_raises _ x (f_equal snd Hr)).
  - right. simpl. f_equal. exact (print_all_raises _ x (f_equal snd Hp)).
Qed.

(** X26.  [cmd_query] with an EXP [e].  From [2^64 - 1] on it prints
    nothing and raises [TypeError].  Below, it prints the header, the
    EXP, its level, the range of the level and, below level 50, the EXP
    still missing for the next level, which is never negative, or at
    level 50 that the highest level is reached, and returns; but a
    negative EXP so large that its distance to level 2, [32 - e], has
    more than [max_str_digits] digits makes it raise [ValueError] before
    the last line, and one that has more than [max_str_digits] digits
    itself right after the header. *)
Theorem cmd_query_exp (e : Z) (lv : option Z) (inputs : list event) :
  (32 - str_limit < e < uint64_max →
   ∃ (l lo : Z) (hi : bound) (last : message),
     cmd_query (Args false (Some e) lv) inputs
     = ([ResultHeader; ExpLine e; LevelLine l; CurrentRangeLine lo hi; last],
        Returns)
     ∧ exp_to_level e = Ok l ∧ get_level_range l = Ok (lo, hi)
     ∧ (l < 50 → ∃ r, last = RemainingLine r ∧ 0 ≤ r)
     ∧ (¬ l < 50 → last = MaxLevelLine))
  ∧ (uint64_max ≤ e →
     cmd_query (Args false (Some e) lv) inputs = ([], Raises TypeError))
  ∧ (- str_limit < e ≤ 32 - str_limit →
     cmd_query (Args false (Some e) lv) inputs
     = ([ResultHeader; ExpLine e; LevelLine 1;
         CurrentRangeLine 0 (Finite 31)], Raises ValueError))
  ∧ (e ≤ - str_limit →
     cmd_query (Args false (Some e) lv) inputs
     = ([ResultHeader], Raises ValueError)).
Proof.
  unfold cmd_query. simpl. repeat split; intros He.
  - rewrite exp_report_table by (reflexivity || exact He). simpl.
    eexists _, _, _, _. split; [reflexivity|].
    split; [apply exp_to_level_table; lia|].
    split; [apply get_level_range_table|].
    split; intros Hl.
    + rewrite (bool_decide_eq_true_2 _ Hl). eexists. split; [reflexivity|].
      now apply remaining_nonneg.
    + now rewrite (bool_decide_eq_false_2 _ Hl).
  - now rewrite exp_report_raises.
  - now rewrite exp_report_no_remaining.
  - now rewrite exp_report_no_exp.
Qed.

Lemma cmd_query_exp_witness :
  (∃ (l lo : Z) (hi : bound) (last : message),
     cmd_query (Args false (Some 500) None) []
     = ([ResultHeader; ExpLine 500; LevelLine l; CurrentRangeLine lo hi;
         last], Returns)
     ∧ exp_to_level 500 = Ok l ∧ get_level_range l = Ok (lo, hi)
     ∧ (l < 50 → ∃ r, last = RemainingLine r ∧ 0 ≤ r)
     ∧ (¬ l < 50 → last = MaxLevelLine))
  ∧ cmd_query (Args false (Some 18446744073709551615) None) []
    = ([], Raises TypeError)
  ∧ cmd_query (Args false (Some (1 - str_limit)) None) []
    = ([ResultHeader; ExpLine (1 - str_limit); LevelLine 1;
        CurrentRangeLine 0 (Finite 31)], Raises ValueError)
  ∧ cmd_query (Args false (Some (- str_limit)) None) []
    = ([ResultHeader], Raises ValueError).
Proof.
  pose proof str_limit_large as Hl. split; [|split; [|split]].
  - apply (proj1 (cmd_query_exp 500 None [])). unfold uint64_max. lia.
  - apply (proj1 (proj2 (cmd_query_exp 18446744073709551615 None []))).
    discriminate.
  - apply (proj1 (proj2 (proj2 (cmd_query_exp (1 - str_limit) None [])))).
    lia.
  - apply (proj2 (proj2 (proj2 (cmd_query_exp (- str_limit) None [])))).
    lia.
Defined.

(** X27.  [cmd_query] with a level [L] and no EXP: for [L] from 1 to 50
    it prints the level, its minimum EXP and its range, the same as
    [get_level_range L] returns, and a range that is not empty; for any
    other [L] it prints that the level is out of range.  It returns in
    both cases. *)
Theorem cmd_query_level (L : Z) (inputs : list event) :
  (1 ≤ L ≤ 50 →
   ∃ (lo : Z) (hi : bound),
     cmd_query (Args false None (Some L)) inputs
     = ([ResultHeader; LevelLine L; MinExpLine lo; RangeLine lo hi], Returns)
     ∧ get_level_range L = Ok (lo, hi)
     ∧ match hi with Finite h => lo ≤ h | Infinity => L = 50 end)
  ∧ (¬ 1 ≤ L ≤ 50 →
     cmd_query (Args false None (Some L)) inputs
     = ([LevelOutOfRange], Returns)).
Proof.
  unfold cmd_query. cbn [interactive arg_exp arg_level]. split; intros HL.
  - rewrite (bool_decide_eq_true_2 _ HL).
    rewrite (level_to_min_exp_table L), get_level_range_table.
    rewrite (level_to_min_exp_table (L + 1)).
    pose proof (min_exp_table_range L).
    pose proof (min_exp_table_range (L + 1)).
    assert (Hf : ∀ hi : bound,
               match hi with
               | Finite h => - 2 ^ 65 ≤ h ≤ 2 ^ 65
               | Infinity => True
               end →
               print_all [ResultHeader; LevelLine L;
                          MinExpLine (min_exp_table L);
                          RangeLine (min_exp_table L) hi]
               = ([ResultHeader; LevelLine L; MinExpLine (min_exp_table L);
                   RangeLine (min_exp_table L) hi], Ok ())).
    { intros hi Hhi. apply print_all_defined. simpl.
      rewrite (str_defined_small L), (str_defined_small (min_exp_table L))
        by lia.
      destruct hi; [now rewrite str_defined_small|reflexivity]. }
    case_bool_decide as H50; cbn [mbind result_bind]; rewrite Hf by lia.
    + eexists _, _. repeat split.
      pose proof (min_exp_table_step L ltac:(lia)). lia.
    + eexists _, _. repeat split. lia.
  - now rewrite (bool_decide_eq_false_2 _ HL).
Qed.

Lemma cmd_query_level_witness :
  (∃ (lo : Z) (hi : bound),
     cmd_query (Args false None (Some 20)) []
     = ([ResultHeader; LevelLine 20; MinExpLine lo; RangeLine lo hi], Returns)
     ∧ get_level_range 20 = Ok (lo, hi)
     ∧ match hi with Finite h => lo ≤ h | Infinity => 20 = 50 end)
  ∧ cmd_query (Args false None (Some 51)) [] = ([LevelOutOfRange], Returns).
Proof.
  split.
  - apply (cmd_query_level 20 []). lia.
  - apply (cmd_query_level 51 []). lia.
Defined.

(** *** Stripping and lower case *)

Lemma strip_left_decompose (s : string) :
  ∃ ws, s = ws +:+ strip_left s ∧ blank ws = true.
Proof.
  induction s as [|c s (ws & Hs & Hws)]; simpl.
  - now exists "".
  - destruct (isspace c) eqn:Hc.
    + exists (String c ws). simpl. rewrite Hc, Hws.
      split; [now f_equal|reflexivity].
    + now exists "".
Qed.

Lemma strip_left_blank_app (ws t : string) :
  blank ws = true → strip_left (ws +:+ t) = strip_left t.
Proof.
  induction ws as [|c ws IH]; simpl; [reflexivity|].
  intros [Hc Hws]%andb_true_iff. rewrite Hc. now apply IH.
Qed.

Lemma strip_right_blank (ws : string) :
  blank ws = true → strip_right ws = "".
Proof.
  induction ws as [|c ws IH]; simpl; [reflexivity|].
  intros [Hc Hws]%andb_true_iff. now rewrite IH, Hc.
Qed.

Lemma strip_right_decompose (s : string) :
  ∃ ws, s = strip_right s +:+ ws ∧ blank ws = true.
Proof.
  induction s as [|c s (ws & Hs & Hws)]; simpl.
  - now exists "".
  - destruct (strip_right s) as [|c' t] eqn:Ht.
    + simpl in Hs. subst s. destruct (isspace c) eqn:Hc.
      * exists (String c ws). simpl. now rewrite Hc, Hws.
      * now exists ws.
    + exists ws. simpl. split; [|exact Hws]. f_equal. exact Hs.
Qed.

Lemma lower_char_q (c : ascii) :
  lower_char c = "q"%char ↔ c = "q"%char ∨ c = "Q"%char.
Proof.
  split.
  - destruct c as [[] [] [] [] [] [] [] []]; vm_compute; intros H;
      try discriminate; auto.
  - intros [-> | ->]; reflexivity.
Qed.

Lemma lower_q (s : string) :
  lower s = "q" ↔ ∃ c, s = String c "" ∧ (c = "q"%char ∨ c = "Q"%char).
Proof.
  split.
  - destruct s as [|c [|c' s]]; simpl; [discriminate| |discriminate].
    intros [= H]. exists c. split; [reflexivity|]. now apply lower_char_q.
  - intros (c & -> & Hc). simpl. f_equal. now apply lower_char_q.
Qed.

Lemma quit_line (s : string) :
  String.eqb (lower (strip s)) "q" = true
  ↔ ∃ (ws1 : string) (c : ascii) (ws2 : string),
      s = ws1 +:+ String c ws2 ∧ blank ws1 = true ∧ blank ws2 = true
      ∧ (c = "q"%char ∨ c = "Q"%char).
Proof.
  rewrite String.eqb_eq, lower_q. unfold strip. split.
  - intros (c & Hs & Hc).
    destruct (strip_left_decompose s) as (ws1 & H1 & Hws1).
    destruct (strip_right_decompose (strip_left s)) as (ws2 & H2 & Hws2).
    rewrite Hs in H2. simpl in H2.
    exists ws1, c, ws2. rewrite H1 at 1. rewrite H2. auto.
  - intros (ws1 & c & ws2 & -> & Hws1 & Hws2 & Hc). exists c.
    split; [|exact Hc].
    rewrite strip_left_blank_app by exact Hws1.
    assert (Hsp : isspace c = false) by (destruct Hc as [-> | ->]; reflexivity).
    simpl. rewrite Hsp. simpl. now rewrite strip_right_blank, Hsp.
Qed.

(** *** The interactive session *)

Lemma scan_digits_raises (n : nat) :
  ∀ (s : string) (acc : Z) (x : exn),
    (String.length s ≤ n)%nat →
    scan_digits acc s = Raise x → x = ValueError.
Proof.
  induction n as [|n IH]; intros s acc x Hlen Hs.
  - destruct s; [discriminate|simpl in Hlen; lia].
  - destruct s as [|c s]; simpl in Hs; [discriminate|]. simpl in Hlen.
    destruct (digit_value c) as [d|];
      [apply (IH s (10 * acc + d) x); [lia|exact Hs]|].
    destruct (Ascii.eqb c "_"); [|discriminate].
    destruct s as [|c' s]; [congruence|].
    destruct (digit_value c') as [d|]; [|congruence]. simpl in Hlen.
    apply (IH s (10 * acc + d) x); [lia|exact Hs].
Qed.

(** [int] raises nothing but [ValueError]. *)
Lemma py_int_raises (s : string) (x : exn) :
  py_int s = Raise x → x = ValueError.
Proof.
  unfold py_int. destruct (split_sign (lstrip s)) as [sign [|c t]];
    [congruence|].
  destruct (digit_value c) as [d|]; [|congruence].
  destruct (scan_digits d t) as [[n rest]|y] eqn:Hscan; simpl.
  - destruct (lstrip rest); [|congruence].
    case_bool_decide; [discriminate|congruence].
  - intros [= <-].
    apply (scan_digits_raises (String.length t) t d y); [lia|exact Hscan].
Qed.

Lemma interactive_body_quit (s : string) :
  interactive_body s = ([Goodbye], Ok true)
  ↔ String.eqb (lower (strip s)) "q" = true.
Proof.
  unfold interactive_body.
  destruct (String.eqb (lower (strip s)) "q"); [done|].
  split; [|discriminate].
  destruct (py_int (strip s)) as [e|x]; [|discriminate].
  destruct (exp_report [] e) as [out [[]|y]]; discriminate.
Qed.

Lemma interactive_loop_ending (inputs : list event) :
  (interactive_loop inputs).2 = first_stop inputs.
Proof.
  induction inputs as [|[s|] inputs IH]; [reflexivity| |reflexivity].
  simpl. unfold interactive_body.
  destruct (String.eqb (lower (strip s)) "q"); [reflexivity|].
  destruct (py_int (strip s)) as [e|x] eqn:Hint.
  - destruct (Z_lt_ge_dec e uint64_max) as [Hlt|Hge].
    + rewrite (bool_decide_eq_false_2 (uint64_max ≤ e)) by lia.
      destruct (exp_report_ending [] e Hlt) as [Hr|Hr];
        destruct (exp_report [] e) as [out r]; simpl in Hr; subst r; simpl;
        now destruct (interactive_loop inputs).
    + rewrite exp_report_raises by lia. simpl.
      now rewrite (bool_decide_eq_true_2 (uint64_max ≤ e)) by lia.
  - apply py_int_raises in Hint as ->.
    now destruct (interactive_loop inputs).
Qed.

(** X28.  A line of the interactive session makes it say goodbye and
    stop exactly when the line is a [q] or a [Q] with nothing but white
    space around it. *)
Theorem interactive_body_quit_iff (s : string) :
  interactive_body s = ([Goodbye], Ok true)
  ↔ ∃ (ws1 : string) (c : ascii) (ws2 : string),
      s = ws1 +:+ String c ws2 ∧ blank ws1 = true ∧ blank ws2 = true
      ∧ (c = "q"%char ∨ c = "Q"%char).
Proof. rewrite interactive_body_quit. apply quit_line. Qed.

(** X29.  How [interactive_query] ends is decided by the first event that
    stops it: it returns at a [KeyboardInterrupt] and at a line that
    reads [q]; it raises [TypeError] at a line that [int] reads as an
    integer from [2^64 - 1] on; any other line lets it go on, be it a
    number, no number, or a number that [int] or [print] refuses for its
    more than [max_str_digits] digits; and when the input ends before
    such an event [input] raises [EOFError].  No exception of another
    kind leaves the function, no [ValueError] in particular. *)
Theorem interactive_query_ending (inputs : list event) :
  (interactive_query inputs).2 = first_stop inputs
  ∧ ∀ x : exn, (interactive_query inputs).2 = Raises x → x = TypeError.
Proof.
  assert (H : (interactive_query inputs).2 = first_stop inputs).
  { unfold interactive_query.
    rewrite <- interactive_loop_ending.
    now destruct (interactive_loop inputs). }
  split; [exact H|]. rewrite H. clear H. intros x.
  induction inputs as [|ev inputs IH]; simpl; [discriminate|].
  destruct (stops ev) as [e|] eqn:Hev; [|exact IH].
  unfold stops in Hev. destruct ev as [s|]; [|intros ->; discriminate].
  destruct (String.eqb (lower (strip s)) "q"); [intros ->; discriminate|].
  destruct (py_int (strip s)); [|discriminate].
  case_bool_decide; [|discriminate]. intros ->. now simplify_eq.
Qed.

(** A line of more digits than [int] converts is answered like a line
    that is no number, and the session goes on. *)
Example interactive_query_long_number :
  interactive_query [Typed long_label; Typed "q"]
  = ([Title; QuitHint; Prompt; InvalidNumber; Prompt; Goodbye], Returns).
Proof. vm_compute. reflexivity. Qed.
End Commands.
